(** * Portfolio site script ([scripts.js]): contact form, navigation, keyboard

    A shallow embedding of the conditional logic of [scripts.js] and the
    properties of its natural-language specification.

    Conventions of the embedding.
    - A JavaScript string is the list of its UTF-16 code units ([list N]);
      [.length] is the length of that list.
    - DOM elements are records; an element reference is an index into the
      list that holds the elements, so two references may alias.
    - [null]/[undefined] results of DOM look-ups are [None].
    - A style property holds the string last assigned to it. The
      [innerHTML] of the submit button is the string its getter returns;
      after an assignment the embedding keeps the assigned markup, where
      the browser returns it parsed and serialised again (the same string
      for the loading label [<span>Sending...</span>]).
    - Scroll offsets and element offsets are integers ([Z]); only their
      order matters.
    - An [async] handler is run to completion in one step, the outcome of
      its awaited network call being a parameter; no other event is
      interleaved.
    - [setTimeout] puts a callback on a list of pending timers, and time
      passes by an explicit step that fires the timers that are due. *)

From Stdlib Require Import ZArith NArith Ascii String Lia.
From stdpp Require Import base decidable option list.

Set Warnings "-register-all".

Open Scope N_scope.

(** ** JavaScript strings *)

Abbreviation jsstring := (list N).

Module JsString.

(** An ASCII literal as a list of code units. *)
Definition js (s : string) : jsstring :=
  N_of_ascii <$> list_ascii_of_string s.

(** ECMAScript [WhiteSpace] and [LineTerminator] code points: the characters
    matched by the regular-expression class [\s] and stripped by
    [String.prototype.trim]. *)
Definition is_whitespace (c : N) : bool :=
  (c =? 9) || (c =? 10) || (c =? 11) || (c =? 12) || (c =? 13) ||
  (c =? 32) || (c =? 160) || (c =? 5760) ||
  ((8192 <=? c) && (c <=? 8202)) ||
  (c =? 8232) || (c =? 8233) || (c =? 8239) || (c =? 8287) ||
  (c =? 12288) || (c =? 65279).

Fixpoint trimStart (s : jsstring) : jsstring :=
  match s with
  | c :: s' => if is_whitespace c then trimStart s' else s
  | [] => []
  end.

Definition trimEnd (s : jsstring) : jsstring :=
  reverse (trimStart (reverse s)).

(** [s.trim()] *)
Definition trim (s : jsstring) : jsstring := trimEnd (trimStart s).

(** Surrogate code units. *)
Definition is_high_surrogate (c : N) : bool := (55296 <=? c) && (c <=? 56319).
Definition is_low_surrogate (c : N) : bool := (56320 <=? c) && (c <=? 57343).

(** Conversion to a scalar value string: a surrogate that is not part of a
    pair of a high and a low one is replaced by U+FFFD. *)
Fixpoint to_scalar_values (s : jsstring) : jsstring :=
  match s with
  | [] => []
  | c :: s' =>
      if is_high_surrogate c then
        match s' with
        | d :: s'' =>
            if is_low_surrogate d then c :: d :: to_scalar_values s''
            else 65533 :: to_scalar_values s'
        | [] => [65533]
        end
      else if is_low_surrogate c then 65533 :: to_scalar_values s'
      else c :: to_scalar_values s'
  end.

(** Truthiness of a string: [!s] holds exactly for the empty string. *)
Definition truthy_string (s : jsstring) : bool :=
  match s with [] => false | _ :: _ => true end.

End JsString.

Import JsString.

(** ** Regular expressions of the shape used by [validateEmail]

    The literal [/^[^\s@]+@[^\s@]+\.[^\s@]+$/] has no flags: it is anchored
    at both ends of the input and works on code units.  Each of its terms is
    a one-character atom, taken once or quantified by a greedy [+]. *)

Module Regex.

Inductive ClassItem :=
  | ClassSpace            (* \s *)
  | ClassChar (c : N).

Inductive Atom :=
  | Char (c : N)                        (* a literal or escaped character *)
  | NegClass (items : list ClassItem).  (* [^...] *)

Inductive Quantifier := Once | OneOrMore.

Record Term := mkTerm { atom : Atom; quant : Quantifier }.

Definition item_matches (i : ClassItem) (c : N) : bool :=
  match i with
  | ClassSpace => is_whitespace c
  | ClassChar d => c =? d
  end.

Definition atom_matches (a : Atom) (c : N) : bool :=
  match a with
  | Char d => c =? d
  | NegClass items => negb (existsb (fun i => item_matches i c) items)
  end.

(** The greedy loop of [a+] after its first character: take one more
    character if possible, and fall back to the continuation otherwise. *)
Fixpoint greedy (a : Atom) (k : jsstring -> bool) (s : jsstring) : bool :=
  match s with
  | c :: s' => (atom_matches a c && greedy a k s') || k s
  | [] => k []
  end.

(** Backtracking match of the terms against the whole of [s]: the input
    starts at [^] and the empty list of terms is [$]. *)
Fixpoint match_terms (ts : list Term) (s : jsstring) : bool :=
  match ts with
  | [] => match s with [] => true | _ :: _ => false end
  | t :: ts' =>
      match s with
      | [] => false
      | c :: s' =>
          atom_matches (atom t) c &&
          match quant t with
          | Once => match_terms ts' s'
          | OneOrMore => greedy (atom t) (match_terms ts') s'
          end
      end
  end.

(** [re.test(s)] for an anchored regular expression without flags. *)
Definition test (re : list Term) (s : jsstring) : bool := match_terms re s.

End Regex.

(** ** Form handling: validation *)

Module Form.

Import Regex.

Definition at_sign : N := 64.
Definition dot : N := 46.

(** [const emailRegex = /^[^\s@]+@[^\s@]+\.[^\s@]+$/] *)
Definition emailRegex : list Term :=
  [ mkTerm (NegClass [ClassSpace; ClassChar at_sign]) OneOrMore;
    mkTerm (Char at_sign) Once;
    mkTerm (NegClass [ClassSpace; ClassChar at_sign]) OneOrMore;
    mkTerm (Char dot) Once;
    mkTerm (NegClass [ClassSpace; ClassChar at_sign]) OneOrMore ].

Definition validateEmail (email : jsstring) : bool :=
  Regex.test emailRegex email.

(** The pattern in the words of the specification: one or more
    non-space/non-@ characters, then "@", then one or more
    non-space/non-@ characters, then ".", then one or more
    non-space/non-@ characters. *)
Definition plain_char (c : N) : Prop :=
  is_whitespace c = false ∧ c ≠ at_sign.

Definition matches_email_pattern (x : jsstring) : Prop :=
  ∃ l d t : jsstring,
    x = l ++ [at_sign] ++ d ++ [dot] ++ t ∧
    l ≠ [] ∧ d ≠ [] ∧ t ≠ [] ∧
    Forall plain_char l ∧ Forall plain_char d ∧ Forall plain_char t.

(** *** The page as the form code sees it *)

(** A control of the contact form ([input] or [textarea]). *)
Record Input := mkInput {
  input_id : jsstring;             (* id attribute, used by querySelector('#..') *)
  input_name : jsstring;           (* name attribute, the key of its FormData entry *)
  value : jsstring;
  defaultValue : jsstring;         (* restored by form.reset() *)
  aria_invalid : option jsstring;  (* the aria-invalid attribute, if set *)
  borderColor : jsstring;          (* style.borderColor *)
  error_message : option nat       (* closest('.form-group')?.querySelector('.error-message') *)
}.

(** An [.error-message] element. Controls of one [.form-group] share it. *)
Record ErrorElement := mkErrorElement {
  error_textContent : jsstring;
  error_display : jsstring
}.

(** The [button[type="submit"]] of the form. *)
Record Button := mkButton {
  disabled : bool;
  innerHTML : jsstring
}.

(** The [#form-status] element. *)
Record Status := mkStatus {
  status_textContent : jsstring;
  status_className : jsstring;
  status_color : jsstring
}.

(** JSON values: the request body and the parsed response. Numbers are only
    ever tested for being zero. *)
Inductive Json :=
  | JNull
  | JBool (b : bool)
  | JNumber (z : Z)
  | JString (s : jsstring)
  | JArray (items : list Json)
  | JObject (fields : list (jsstring * Json)).

(** A [fetch] call. [body] is the value handed to [JSON.stringify]. *)
Record Request := mkRequest {
  url : jsstring;
  method : jsstring;
  headers : list (jsstring * jsstring);
  body : Json
}.

(** What the [try] block can throw. *)
Inductive Thrown :=
  | Rejection (reason : jsstring)   (* rejection of fetch() or of response.json() *)
  | TypeError_null                  (* property read on null *)
  | Error_of (message : Json).      (* new Error(v) *)

(** The callbacks handed to [setTimeout] by the form code. *)
Inductive Callback :=
  | ClearStatus.

Record Page := mkPage {
  controls : list Input;                 (* controls of #contact-form, in tree order *)
  errorElements : list ErrorElement;
  submitButton : option Button;
  formStatus : option Status;
  timers : list (N * Callback);          (* pending timers: remaining delay in ms *)
  requests : list Request;               (* fetch calls issued so far *)
  console : list (jsstring * Thrown)     (* console.error calls so far *)
}.

Definition set_controls (f : list Input → list Input) (p : Page) : Page :=
  mkPage (f (controls p)) (errorElements p) (submitButton p) (formStatus p)
         (timers p) (requests p) (console p).
Definition set_errorElements (f : list ErrorElement → list ErrorElement)
    (p : Page) : Page :=
  mkPage (controls p) (f (errorElements p)) (submitButton p) (formStatus p)
         (timers p) (requests p) (console p).
Definition set_submitButton (f : option Button → option Button) (p : Page) : Page :=
  mkPage (controls p) (errorElements p) (f (submitButton p)) (formStatus p)
         (timers p) (requests p) (console p).
Definition set_formStatus (f : option Status → option Status) (p : Page) : Page :=
  mkPage (controls p) (errorElements p) (submitButton p) (f (formStatus p))
         (timers p) (requests p) (console p).
Definition set_timers (f : list (N * Callback) → list (N * Callback))
    (p : Page) : Page :=
  mkPage (controls p) (errorElements p) (submitButton p) (formStatus p)
         (f (timers p)) (requests p) (console p).
Definition set_requests (f : list Request → list Request) (p : Page) : Page :=
  mkPage (controls p) (errorElements p) (submitButton p) (formStatus p)
         (timers p) (f (requests p)) (console p).
Definition set_console (f : list (jsstring * Thrown) → list (jsstring * Thrown))
    (p : Page) : Page :=
  mkPage (controls p) (errorElements p) (submitButton p) (formStatus p)
         (timers p) (requests p) (f (console p)).

Definition set_annotation (a : option jsstring) (b : jsstring) (c : Input) : Input :=
  mkInput (input_id c) (input_name c) (value c) (defaultValue c) a b
          (error_message c).
Definition set_value (v : jsstring) (c : Input) : Input :=
  mkInput (input_id c) (input_name c) v (defaultValue c) (aria_invalid c)
          (borderColor c) (error_message c).

(** [contactForm.querySelector('#' + id)]: the first control with that id. *)
Definition querySelector (id : jsstring) (p : Page) : option nat :=
  fst <$> list_find (λ c, input_id c = id) (controls p).

(** [input.value] *)
Definition value_of (input : nat) (p : Page) : jsstring :=
  from_option value [] (controls p !! input).

(** *** Error annotations *)

Definition showError (input : nat) (message : jsstring) (p : Page) : Page :=
  let errorElement := controls p !! input ≫= error_message in
  let p :=
    match errorElement with
    | Some e =>
        set_errorElements (alter (λ _, mkErrorElement message (js "block")) e) p
    | None => p
    end in
  set_controls (alter (set_annotation (Some (js "true")) (js "#ff6b6b")) input) p.

Definition clearError (input : nat) (p : Page) : Page :=
  let errorElement := controls p !! input ≫= error_message in
  let p :=
    match errorElement with
    | Some e =>
        set_errorElements (alter (λ _, mkErrorElement [] (js "none")) e) p
    | None => p
    end in
  set_controls (alter (set_annotation None []) input) p.

(** *** validateForm *)

Definition validateForm (p : Page) : Page * bool :=
  let isValid := true in
  let nameInput := querySelector (js "name") p in
  let emailInput := querySelector (js "email") p in
  let messageInput := querySelector (js "message") p in
  (* Validate name *)
  let '(p, isValid) :=
    match nameInput with
    | Some input =>
        let name := trim (value_of input p) in
        if negb (truthy_string name) then
          (showError input (js "Please enter your name") p, false)
        else if (length name <? 2)%nat then
          (showError input (js "Name must be at least 2 characters") p, false)
        else (clearError input p, isValid)
    | None => (p, isValid)
    end in
  (* Validate email *)
  let '(p, isValid) :=
    match emailInput with
    | Some input =>
        let email := trim (value_of input p) in
        if negb (truthy_string email) then
          (showError input (js "Please enter your email") p, false)
        else if negb (validateEmail email) then
          (showError input (js "Please enter a valid email address") p, false)
        else (clearError input p, isValid)
    | None => (p, isValid)
    end in
  (* Validate message *)
  let '(p, isValid) :=
    match messageInput with
    | Some input =>
        let message := trim (value_of input p) in
        if negb (truthy_string message) then
          (showError input (js "Please enter a message") p, false)
        else if (length message <? 10)%nat then
          (showError input (js "Message must be at least 10 characters") p, false)
        else (clearError input p, isValid)
    | None => (p, isValid)
    end in
  (p, isValid).

(** *** The validation rules in the words of the specification *)

Inductive Reason := Required | TooShort | InvalidFormat.

(** Name: fails Required if empty after trimming; fails TooShort if
    length < 2. *)
Definition name_rule (raw : jsstring) : option Reason :=
  if decide (trim raw = []) then Some Required
  else if decide (length (trim raw) < 2)%nat then Some TooShort
  else None.

(** Email: fails Required if empty; fails InvalidFormat if it does not match
    the pattern. *)
Definition email_rule (raw : jsstring) : option Reason :=
  if decide (trim raw = []) then Some Required
  else if validateEmail (trim raw) then None
  else Some InvalidFormat.

(** Message: fails Required if empty; fails TooShort if length < 10. *)
Definition message_rule (raw : jsstring) : option Reason :=
  if decide (trim raw = []) then Some Required
  else if decide (length (trim raw) < 10)%nat then Some TooShort
  else None.

(** The message shown for each field and reason. *)
Definition name_text (r : Reason) : jsstring :=
  match r with
  | Required => js "Please enter your name"
  | _ => js "Name must be at least 2 characters"
  end.
Definition email_text (r : Reason) : jsstring :=
  match r with
  | Required => js "Please enter your email"
  | _ => js "Please enter a valid email address"
  end.
Definition message_text (r : Reason) : jsstring :=
  match r with
  | Required => js "Please enter a message"
  | _ => js "Message must be at least 10 characters"
  end.

(** The three validated fields, in the order of the code: id, rule and
    error texts. *)
Record Field := mkField {
  field_id : jsstring;
  field_rule : jsstring → option Reason;
  field_text : Reason → jsstring
}.

Definition name_field := mkField (js "name") name_rule name_text.
Definition email_field := mkField (js "email") email_rule email_text.
Definition message_field := mkField (js "message") message_rule message_text.
Definition fields : list Field := [name_field; email_field; message_field].

(** A field is reported valid when its control is absent (the code guards
    every look-up) or its value passes the rule. *)
Definition field_valid (f : Field) (p : Page) : bool :=
  match querySelector (field_id f) p with
  | Some input => bool_decide (field_rule f (value_of input p) = None)
  | None => true
  end.

(** A field fails validation with reason [r] at control [input]. *)
Definition field_fails (f : Field) (p : Page) (input : nat) (r : Reason) : Prop :=
  querySelector (field_id f) p = Some input ∧
  field_rule f (value_of input p) = Some r.

(** *** Exceptions: the monad of the [try] block *)

Definition Exn (A : Type) : Type := Page → Page * (Thrown + A).

#[global] Instance Exn_ret : MRet Exn := λ A a p, (p, inr a).
#[global] Instance Exn_bind : MBind Exn := λ A B k m p,
  match m p with
  | (p', inl e) => (p', inl e)
  | (p', inr a) => k a p'
  end.

Definition throw {A} (e : Thrown) : Exn A := λ p, (p, inl e).
Definition effect (f : Page → Page) : Exn unit := λ p, (f p, inr tt).

(** [try { body } catch (error) { handler } finally { finalizer }] where
    neither the handler nor the finalizer throws. *)
Definition try_catch_finally (body : Exn unit) (handler : Thrown → Page → Page)
    (finalizer : Page → Page) (p : Page) : Page :=
  match body p with
  | (p', inr _) => finalizer p'
  | (p', inl error) => finalizer (handler error p')
  end.

(** *** The network call and its response *)

(** How the awaited calls of one submission turn out. *)
Inductive Outcome :=
  | FetchRejects (reason : jsstring)   (* transport error: fetch() rejects *)
  | JsonRejects (reason : jsstring)    (* the response body is not JSON *)
  | Resolves (result : Json).          (* response.json() gives [result] *)

(** [await fetch(url, init)] *)
Definition fetch (request : Request) (o : Outcome) : Exn Outcome := λ p,
  let p := set_requests (λ rs, rs ++ [request]) p in
  match o with
  | FetchRejects reason => (p, inl (Rejection reason))
  | _ => (p, inr o)
  end.

(** [await response.json()] *)
Definition response_json (response : Outcome) : Exn Json :=
  match response with
  | Resolves result => mret result
  | JsonRejects reason | FetchRejects reason => throw (Rejection reason)
  end.

(** [v.key] for a value other than [null] and the keys read by the handler
    ([success], [message]), which no prototype defines: [undefined] ([None])
    unless [v] is an object that has the key. [JSON.parse] keeps the last of
    duplicate keys. *)
Definition member (v : Json) (key : jsstring) : option Json :=
  match v with
  | JObject fields => snd ∘ snd <$> list_find (λ kv, kv.1 = key) (reverse fields)
  | _ => None
  end.

(** [v.key]; the read throws on [null]. *)
Definition property (v : Json) (key : jsstring) : Exn (option Json) :=
  match v with
  | JNull => throw TypeError_null
  | _ => mret (member v key)
  end.

Definition truthy (v : option Json) : bool :=
  match v with
  | None | Some JNull => false
  | Some (JBool b) => b
  | Some (JNumber z) => negb (z =? 0)%Z
  | Some (JString s) => truthy_string s
  | Some (JArray _) | Some (JObject _) => true
  end.

(** [message || 'Submission failed'] *)
Definition message_or_default (message : option Json) : Json :=
  match message with
  | Some m => if truthy message then m else JString (js "Submission failed")
  | None => JString (js "Submission failed")
  end.

(** *** Form data and the request *)

(** [new FormData(contactForm).get(key)]: the value of the first control
    whose name attribute is [key], as a scalar value string, [null] if there
    is none. *)
Definition FormData_get (key : jsstring) (p : Page) : option jsstring :=
  to_scalar_values ∘ value ∘ snd <$>
    list_find (λ c, input_name c = key) (controls p).

(** A FormData entry as a JSON value and inside a template literal. *)
Definition entry_json (v : option jsstring) : Json :=
  match v with Some s => JString s | None => JNull end.
Definition entry_string (v : option jsstring) : jsstring :=
  match v with Some s => s | None => js "null" end.

Definition access_key : jsstring := js "f45e1224-9822-4d7b-9ce0-e88fb5594e30".

Definition subject_of (name : option jsstring) : jsstring :=
  js "New message from " ++ entry_string name ++ js " - Portfolio Contact Form".

(** The object [data]. *)
Definition form_data (p : Page) : Json :=
  JObject
    [ (js "access_key", JString access_key);
      (js "name", entry_json (FormData_get (js "name") p));
      (js "email", entry_json (FormData_get (js "email") p));
      (js "message", entry_json (FormData_get (js "message") p));
      (js "subject", JString (subject_of (FormData_get (js "name") p))) ].

Definition submit_request (data : Json) : Request :=
  mkRequest (js "https://api.web3forms.com/submit") (js "POST")
    [ (js "Content-Type", js "application/json");
      (js "Accept", js "application/json") ]
    data.

(** *** Status line, reset and timers *)

(** "✓ Message sent successfully! I'll get back to you soon." *)
Definition success_text : jsstring :=
  10003 :: js " Message sent successfully! I'll get back to you soon.".

(** "✗ Something went wrong. Please try again." *)
Definition failure_text : jsstring :=
  10007 :: js " Something went wrong. Please try again.".

Definition set_status_text (text : jsstring) (s : Status) : Status :=
  mkStatus text (status_className s) (status_color s).
Definition set_status_color (color : jsstring) (s : Status) : Status :=
  mkStatus (status_textContent s) (status_className s) color.
Definition set_status_className (name : jsstring) (s : Status) : Status :=
  mkStatus (status_textContent s) name (status_color s).

(** [contactForm.reset()]: every control goes back to its default value. *)
Definition reset (p : Page) : Page :=
  set_controls (fmap (λ c, set_value (defaultValue c) c)) p.

(** Pending timers are kept in the order in which they fire. *)
Fixpoint schedule (t : N * Callback) (ts : list (N * Callback))
    : list (N * Callback) :=
  match ts with
  | [] => [t]
  | t' :: ts' => if t'.1 <=? t.1 then t' :: schedule t ts' else t :: ts
  end.

Definition setTimeout (callback : Callback) (delay : N) (p : Page) : Page :=
  set_timers (schedule (delay, callback)) p.

Definition run_callback (c : Callback) (p : Page) : Page :=
  match c with
  | ClearStatus => set_formStatus (fmap (set_status_text [])) p
  end.

(** [ms] milliseconds pass with no other event: the timers that are due
    fire in order, the others come closer. *)
Definition advance (ms : N) (p : Page) : Page :=
  let due := filter (λ t, t.1 ≤ ms) (timers p) in
  let later := filter (λ t, ¬ t.1 ≤ ms) (timers p) in
  foldl (λ q t, run_callback t.2 q)
        (set_timers (λ _, (λ t, (t.1 - ms, t.2)) <$> later) p) due.

(** *** The submit handler *)

Definition console_error (label : jsstring) (error : Thrown) (p : Page) : Page :=
  set_console (λ c, c ++ [(label, error)]) p.

(** The first statements of the handler: [e.preventDefault()] and the
    clearing of the previous status. *)
Definition clear_previous_status (p : Page) : Page :=
  set_formStatus
    (fmap (λ s, set_status_className (js "form-status") (set_status_text [] s)))
    p.

(** The [try] block. *)
Definition try_block (data : Json) (o : Outcome) : Exn unit :=
  response ← fetch (submit_request data) o;
  result ← response_json response;
  success ← property result (js "success");
  if truthy success then
    effect (set_formStatus
              (fmap (λ s, set_status_color (js "var(--accent-cyan)")
                            (set_status_text success_text s))));;
    effect reset;;
    effect (setTimeout ClearStatus 5000)
  else
    message ← property result (js "message");
    throw (Error_of (message_or_default message)).

(** The [catch (error)] block. *)
Definition catch_block (error : Thrown) (p : Page) : Page :=
  let p :=
    set_formStatus
      (fmap (λ s, set_status_color (js "#ff6b6b")
                    (set_status_text failure_text s))) p in
  console_error (js "Form submission error:") error p.

(** The [finally] block: [if (submitButton && originalButtonText)]. The
    button is enabled and its saved markup assigned back. *)
Definition finally_block (originalButtonText : option jsstring) (p : Page) : Page :=
  match submitButton p, originalButtonText with
  | Some _, Some text =>
      if truthy_string text
      then set_submitButton (fmap (λ _, mkButton false text)) p
      else p
  | _, _ => p
  end.

(** The loading state of the submit button. *)
Definition show_loading (p : Page) : Page :=
  set_submitButton (fmap (λ _, mkButton true (js "<span>Sending...</span>"))) p.

Definition submit (o : Outcome) (p : Page) : Page :=
  let p := clear_previous_status p in
  (* Validate form *)
  let '(p, valid) := validateForm p in
  if negb valid then p else
  (* Get form data *)
  let data := form_data p in
  (* Show loading state *)
  let originalButtonText := innerHTML <$> submitButton p in
  let p := show_loading p in
  try_catch_finally (try_block data o) catch_block
    (finally_block originalButtonText) p.

(** *** Notions used to state the properties *)

(** The part of a control that validation and error display never change. *)
Definition core (c : Input) : jsstring * jsstring * jsstring * jsstring * option nat :=
  (input_id c, input_name c, value c, defaultValue c, error_message c).

Definition same_data (p q : Page) : Prop :=
  core <$> controls p = core <$> controls q.

(** The part of the page outside the controls and their error elements. *)
Definition surroundings (p : Page) :=
  (submitButton p, formStatus p, timers p, requests p, console p).

(** One block of [validateForm], for any of the three fields. *)
Definition validate_field (st : Page * bool) (f : Field) : Page * bool :=
  match querySelector (field_id f) st.1 with
  | Some input =>
      match field_rule f (value_of input st.1) with
      | Some r => (showError input (field_text f r) st.1, false)
      | None => (clearError input st.1, st.2)
      end
  | None => st
  end.

(** The reference of a field to its error element, if it has one. *)
Definition error_ref (f : Field) (p : Page) : option nat :=
  input ← querySelector (field_id f) p;
  controls p !! input ≫= error_message.

(** What validation leaves on a control and in its error element, for the
    verdict [r] of the rule. *)
Definition expected_annotation (r : option Reason) : option jsstring * jsstring :=
  match r with
  | Some _ => (Some (js "true"), js "#ff6b6b")
  | None => (None, [])
  end.
Definition expected_error (f : Field) (r : option Reason) : ErrorElement :=
  match r with
  | Some r => mkErrorElement (field_text f r) (js "block")
  | None => mkErrorElement [] (js "none")
  end.

(** A field has its error element to itself among the validated fields. *)
Definition own_error_element (f : Field) (p : Page) (e : nat) : Prop :=
  error_ref f p = Some e ∧
  ∀ g, g ∈ fields → field_id g ≠ field_id f → error_ref g p ≠ Some e.

(** The form passes validation. *)
Definition form_valid (p : Page) : bool :=
  forallb (λ f, field_valid f p) fields.

(** The submission fails with [error]: the transport fails, the body does
    not parse, or the response does not report success. *)
Inductive fails_with : Outcome → Thrown → Prop :=
  | fails_fetch reason : fails_with (FetchRejects reason) (Rejection reason)
  | fails_json reason : fails_with (JsonRejects reason) (Rejection reason)
  | fails_null : fails_with (Resolves JNull) TypeError_null
  | fails_response result :
      result ≠ JNull →
      truthy (member result (js "success")) = false →
      fails_with (Resolves result)
        (Error_of (message_or_default (member result (js "message")))).

(** The response reports success. *)
Definition succeeds (o : Outcome) : Prop :=
  ∃ result, o = Resolves result ∧ result ≠ JNull ∧
            truthy (member result (js "success")) = true.


(** The page once the request [data] has been sent, and once the success
    branch has run. *)
Definition logged (data : Json) (p : Page) : Page :=
  set_requests (λ rs, rs ++ [submit_request data]) p.
Definition succeeded (p : Page) : Page :=
  setTimeout ClearStatus 5000
    (reset
       (set_formStatus
          (fmap (λ s, set_status_color (js "var(--accent-cyan)")
                        (set_status_text success_text s))) p)).

(** The text of the status line, if the page has one. *)
Definition status_text (p : Page) : option jsstring :=
  status_textContent <$> formStatus p.

(** A page with the three fields, each in a form group of its own, a
    submit button and a status line; used for examples. *)
Definition sample_input (id v : string) (e : nat) : Input :=
  mkInput (js id) (js id) (js v) [] None [] (Some e).
Definition sample_page (name email message label : string) : Page :=
  mkPage
    [ sample_input "name" name 0; sample_input "email" email 1;
      sample_input "message" message 2 ]
    [ mkErrorElement [] (js "none"); mkErrorElement [] (js "none");
      mkErrorElement [] (js "none") ]
    (Some (mkButton false (js label)))
    (Some (mkStatus [] (js "form-status") []))
    [] [] [].

(** A valid page whose name and message fields have preset values, and a
    valid page whose name ends in a lone high surrogate. *)
Definition preset_page : Page :=
  mkPage
    [ mkInput (js "name") (js "name") (js "Al") (js "Your name") None []
              (Some 0%nat);
      sample_input "email" "a@b.co" 1;
      mkInput (js "message") (js "message") (js "1234567890") (js "Type here")
              None [] (Some 2%nat) ]
    [ mkErrorElement [] (js "none"); mkErrorElement [] (js "none");
      mkErrorElement [] (js "none") ]
    (Some (mkButton false (js "Send")))
    (Some (mkStatus [] (js "form-status") []))
    [] [] [].

(** The annotation of the control at [input], if any. *)
Definition annotation (input : nat) (p : Page) : option (option jsstring * jsstring) :=
  (λ c, (aria_invalid c, borderColor c)) <$> controls p !! input.

(** *** Real-time validation *)

(** The blur listener of the control [input]:
    [if (input.value.trim()) validateForm()]. *)
Definition on_blur (input : nat) (p : Page) : Page :=
  if truthy_string (trim (value_of input p)) then (validateForm p).1 else p.

(** The input listener of the control [input]:
    [if (input.getAttribute('aria-invalid') === 'true') clearError(input)]. *)
Definition on_input (input : nat) (p : Page) : Page :=
  if bool_decide (controls p !! input ≫= aria_invalid = Some (js "true"))
  then clearError input p
  else p.

(** What the last block of [validateForm] that refers to the error element
    [e] writes into it, if any block does. *)
Definition last_error_write (fs : list Field) (p : Page) (e : nat)
    : option ErrorElement :=
  foldl (λ acc f,
           match querySelector (field_id f) p with
           | Some input =>
               if decide (controls p !! input ≫= error_message = Some e)
               then Some (expected_error f (field_rule f (value_of input p)))
               else acc
           | None => acc
           end) None fs.

(** What the last block of [validateForm] that finds the control [input]
    leaves as its annotation, if any block does. *)
Definition last_annotation_write (fs : list Field) (p : Page) (input : nat)
    : option (option jsstring * jsstring) :=
  foldl (λ acc f,
           if decide (querySelector (field_id f) p = Some input)
           then Some (expected_annotation (field_rule f (value_of input p)))
           else acc) None fs.

End Form.

(** ** Navigation: active section highlighting *)

Module Nav.

(** [element.classList] *)
Definition classList_contains (c : jsstring) (l : list jsstring) : bool :=
  bool_decide (c ∈ l).
Definition classList_add (c : jsstring) (l : list jsstring) : list jsstring :=
  if decide (c ∈ l) then l else l ++ [c].
Definition classList_remove (c : jsstring) (l : list jsstring) : list jsstring :=
  filter (λ x, x ≠ c) l.

(** A [section[id]] element. *)
Record Section := mkSection {
  section_id : jsstring;
  offsetTop : Z;
  offsetHeight : Z
}.

(** A [.nav-link] element. *)
Record NavLink := mkNavLink {
  href : jsstring;
  classList : list jsstring
}.

Definition set_classList (f : list jsstring → list jsstring) (l : NavLink) : NavLink :=
  mkNavLink (href l) (f (classList l)).

Definition is_active (l : NavLink) : bool :=
  classList_contains (js "active") (classList l).

(** [document.querySelector(`.nav-link[href="#${sectionId}"]`)], for ids
    that need no escaping inside the selector. *)
Definition querySelector_link (sectionId : jsstring) (navLinks : list NavLink)
    : option nat :=
  fst <$> list_find (λ l, href l = js "#" ++ sectionId) navLinks.

(** The body of [sections.forEach(section => ...)]. *)
Definition highlight_section (scrollPosition : Z) (navLinks : list NavLink)
    (section : Section) : list NavLink :=
  let sectionTop := offsetTop section in
  let sectionHeight := offsetHeight section in
  let sectionId := section_id section in
  match querySelector_link sectionId navLinks with
  | None => navLinks
  | Some correspondingLink =>
      if ((sectionTop <=? scrollPosition) &&
          (scrollPosition <? sectionTop + sectionHeight))%Z
      then
        alter (set_classList (classList_add (js "active"))) correspondingLink
          (set_classList (classList_remove (js "active")) <$> navLinks)
      else navLinks
  end.

Definition highlightActiveSection (scrollY : Z) (sections : list Section)
    (navLinks : list NavLink) : list NavLink :=
  let scrollPosition := (scrollY + 150)%Z in
  foldl (highlight_section scrollPosition) navLinks sections.

(** The offset range [[sectionTop, sectionTop + height)] of a section. *)
Definition in_range (scrollPosition : Z) (s : Section) : Prop :=
  (offsetTop s ≤ scrollPosition < offsetTop s + offsetHeight s)%Z.

(** Pairwise non-overlapping ranges: no position lies in the ranges of two
    different sections. *)
Definition non_overlapping (sections : list Section) : Prop :=
  ∀ i j s t x, sections !! i = Some s → sections !! j = Some t →
    in_range x s → in_range x t → i = j.

Definition active_count (navLinks : list NavLink) : nat :=
  length (filter (λ l, is_active l = true) navLinks).

(** The links after a section has matched: every link loses the active
    state, then the link of the section gets it. *)
Definition only_active (i : nat) (navLinks : list NavLink) : list NavLink :=
  alter (set_classList (classList_add (js "active"))) i
    (set_classList (classList_remove (js "active")) <$> navLinks).

(** The link of the last section, in document order, whose range holds
    [scrollPosition] and which has a link. *)
Definition last_match (scrollPosition : Z) (sections : list Section)
    (navLinks : list NavLink) : option nat :=
  foldl (λ acc s,
           match querySelector_link (section_id s) navLinks with
           | Some i =>
               if ((offsetTop s <=? scrollPosition) &&
                   (scrollPosition <? offsetTop s + offsetHeight s))%Z
               then Some i else acc
           | None => acc
           end) None sections.

(** The body of [handleNavScroll], on the class list of [.site-nav] (if the
    element exists). *)
Definition navScroll (scrollY : Z) (nav : option (list jsstring))
    : option (list jsstring) :=
  if (100 <? scrollY)%Z
  then classList_add (js "scrolled") <$> nav
  else classList_remove (js "scrolled") <$> nav.

(** Two adjacent sections and their links, used for examples. *)
Definition sample_sections : list Section :=
  [ mkSection (js "about") 0 600; mkSection (js "projects") 600 900 ].
Definition sample_links (about projects : list jsstring) : list NavLink :=
  [ mkNavLink (js "#about") about; mkNavLink (js "#projects") projects ].

End Nav.

(** ** Mobile menu and keyboard navigation *)

Module Menu.

Import Nav.

Inductive Element :=
  | Toggle                 (* .nav-toggle *)
  | MenuItem (n : nat)     (* the n-th focusable element inside .nav-menu *)
  | Outside (n : nat).     (* a focusable element elsewhere on the page *)

#[global] Instance Element_eq_dec : EqDecision Element.
Proof. solve_decision. Defined.

Record KeyEvent := mkKeyEvent {
  key : jsstring;
  shiftKey : bool
}.

(** A keydown listener attached to the menu element. The script has one
    such function, [handleTab], closed over [firstFocusable] and
    [lastFocusable]. *)
Inductive Listener :=
  | HandleTab (firstFocusable lastFocusable : option Element).

Record MenuPage := mkMenuPage {
  aria_expanded : option jsstring;      (* attribute of .nav-toggle *)
  menu_classList : list jsstring;       (* classList of .nav-menu *)
  body_overflow : jsstring;             (* document.body.style.overflow *)
  focusableElements : list Element;     (* focusable elements inside the menu *)
  activeElement : option Element;       (* document.activeElement *)
  menu_keydown : list Listener          (* keydown listeners on .nav-menu *)
}.

Definition menu_open (p : MenuPage) : bool :=
  classList_contains (js "open") (menu_classList p).

Definition focus (e : Element) (p : MenuPage) : MenuPage :=
  mkMenuPage (aria_expanded p) (menu_classList p) (body_overflow p)
             (focusableElements p) (Some e) (menu_keydown p).

(** [document.activeElement === x], where [x] may be [undefined]. *)
Definition same_element (a x : option Element) : bool :=
  match a, x with
  | Some a, Some x => bool_decide (a = x)
  | _, _ => false
  end.

(** The click handler of [.nav-toggle]. *)
Definition toggle_click (p : MenuPage) : MenuPage :=
  let isExpanded := bool_decide (aria_expanded p = Some (js "true")) in
  mkMenuPage
    (Some (if negb isExpanded then js "true" else js "false"))
    (if menu_open p then classList_remove (js "open") (menu_classList p)
     else classList_add (js "open") (menu_classList p))
    (if negb isExpanded then js "hidden" else [])
    (focusableElements p) (activeElement p) (menu_keydown p).

(** [handleTab]: the page after the listener and whether it called
    [e.preventDefault()]. *)
Definition handleTab (firstFocusable lastFocusable : option Element)
    (e : KeyEvent) (p : MenuPage) : MenuPage * bool :=
  if negb (bool_decide (key e = js "Tab")) then (p, false)
  else if shiftKey e then
    if same_element (activeElement p) firstFocusable
    then match lastFocusable with
         | Some l => (focus l p, true)
         | None => (p, false)          (* undefined.focus() throws *)
         end
    else (p, false)
  else
    if same_element (activeElement p) lastFocusable
    then match firstFocusable with
         | Some f => (focus f p, true)
         | None => (p, false)          (* undefined.focus() throws *)
         end
    else (p, false).

(** [trapFocus(element)] for the menu element: attaches [handleTab]. *)
Definition trapFocus (p : MenuPage) : MenuPage :=
  let firstFocusable := head (focusableElements p) in
  let lastFocusable := last (focusableElements p) in
  mkMenuPage (aria_expanded p) (menu_classList p) (body_overflow p)
             (focusableElements p) (activeElement p)
             (menu_keydown p ++ [HandleTab firstFocusable lastFocusable]).

(** The keydown handler of [document]: Escape closes the menu. *)
Definition document_keydown (e : KeyEvent) (p : MenuPage) : MenuPage :=
  if bool_decide (key e = js "Escape") && menu_open p then
    mkMenuPage (Some (js "false"))
               (classList_remove (js "open") (menu_classList p))
               [] (focusableElements p) (Some Toggle) (menu_keydown p)
  else p.

Definition run_listener (l : Listener) (e : KeyEvent) (st : MenuPage * bool)
    : MenuPage * bool :=
  match l with
  | HandleTab f t =>
      let '(p, prevented) := handleTab f t e st.1 in (p, st.2 || prevented)
  end.

(** A keydown event on the focused element: the listeners of the menu run
    if the target is inside it, then the listener of the document. The
    result says whether the default action was prevented. *)
Definition keydown (e : KeyEvent) (p : MenuPage) : MenuPage * bool :=
  let inside :=
    match activeElement p with
    | Some (MenuItem _) => true
    | _ => false
    end in
  let st :=
    if inside then foldl (λ st l, run_listener l e st) (p, false) (menu_keydown p)
    else (p, false) in
  (document_keydown e st.1, st.2).

(** [navLinks.forEach(link => link.addEventListener('click', ...))] and the
    click handler of [document] for a click outside the menu and the toggle:
    both close an open menu. *)
Definition close_menu (p : MenuPage) : MenuPage :=
  if menu_open p then
    mkMenuPage (Some (js "false"))
               (classList_remove (js "open") (menu_classList p))
               [] (focusableElements p) (activeElement p) (menu_keydown p)
  else p.

(** What can happen to the menu once the script has run. A change of focus
    is the browser's doing: a click, or the default action of Tab. *)
Inductive Event :=
  | ToggleClick
  | LinkClick
  | OutsideClick
  | KeyDown (e : KeyEvent)
  | FocusChange (a : option Element).

Definition handle (ev : Event) (p : MenuPage) : MenuPage :=
  match ev with
  | ToggleClick => toggle_click p
  | LinkClick | OutsideClick => close_menu p
  | KeyDown e => (keydown e p).1
  | FocusChange a =>
      mkMenuPage (aria_expanded p) (menu_classList p) (body_overflow p)
                 (focusableElements p) a (menu_keydown p)
  end.

(** The page when the script has run: its top level attaches the click,
    outside-click and Escape handlers and does not call [trapFocus], so the
    menu has no keydown listener. *)
Definition loaded (p : MenuPage) : Prop := menu_keydown p = [].

Inductive reachable (p0 : MenuPage) : MenuPage → Prop :=
  | reachable_loaded : reachable p0 p0
  | reachable_event p ev : reachable p0 p → reachable p0 (handle ev p).

(** A closed menu of three links with the focus on the toggle, used for
    examples. *)
Definition sample_menu : MenuPage :=
  mkMenuPage (Some (js "false")) [js "nav-menu"] []
             [MenuItem 0; MenuItem 1; MenuItem 2] (Some Toggle) [].

Definition tab (shift : bool) : KeyEvent := mkKeyEvent (js "Tab") shift.

(** The attributes that go with the state of the menu: [aria-expanded] on
    the toggle and the scroll lock on the body. *)
Definition menu_consistent (p : MenuPage) : Prop :=
  aria_expanded p = Some (if menu_open p then js "true" else js "false") ∧
  body_overflow p = (if menu_open p then js "hidden" else []).

End Menu.

(** ** Scroll animations *)

Module Observers.

Import Nav.

(** An [IntersectionObserverEntry]: the observed element, as its index among
    the observed elements, and whether it intersects. *)
Record Entry := mkEntry {
  target : nat;
  isIntersecting : bool
}.

(** The callback of [fadeInObserver], on the class lists of the observed
    elements. *)
Definition fadeIn (entries : list Entry) (elements : list (list jsstring))
    : list (list jsstring) :=
  foldl (λ els entry,
           if isIntersecting entry
           then alter (classList_add (js "visible")) (target entry) els
           else els) elements entries.

End Observers.

(** ** Rate limiting: [debounce] and [throttle] *)

Module Rate.

(** What happens to a rate-limited function: it is called, or time passes
    with no call. *)
Inductive Event (Args : Type) :=
  | Call (args : Args)
  | Wait (ms : N).
Arguments Call {Args} args.
Arguments Wait {Args} ms.

(** The delay [setTimeout] works with: its argument as a 32-bit signed
    integer, a negative one counting as 0. From 2^31 ms on the timer is due
    at once. *)
Definition setTimeout_delay (ms : N) : N :=
  let wrapped := ms mod 4294967296 in
  if wrapped <? 2147483648 then wrapped else 0.

Section rate.

Context {Args S : Type}.

(** The wrapped function, as its effect on the state it works on. *)
Variable func : Args → S → S.

(** *** throttle *)

(** The closure of [throttle(func, limit)]: the flag [inThrottle] and the
    pending timers that reset it, with their remaining delays. *)
Record Throttle := mkThrottle {
  inThrottle : bool;
  release : list N
}.

(** [let inThrottle;] *)
Definition throttle_init : Throttle := mkThrottle false [].

(** [executedFunction(...args)] *)
Definition throttle_call (limit : N) (args : Args) (st : Throttle * S)
    : Throttle * S :=
  if negb (inThrottle st.1)
  then (mkThrottle true (release st.1 ++ [setTimeout_delay limit]),
        func args st.2)
  else st.

(** [ms] milliseconds pass: the timers that are due run
    [() => inThrottle = false]. *)
Definition throttle_wait (ms : N) (st : Throttle * S) : Throttle * S :=
  let due := filter (λ r, r ≤ ms) (release st.1) in
  let later := filter (λ r, ¬ r ≤ ms) (release st.1) in
  (mkThrottle (match due with [] => inThrottle st.1 | _ :: _ => false end)
              ((λ r, r - ms) <$> later),
   st.2).

Definition throttle_step (limit : N) (st : Throttle * S) (ev : Event Args)
    : Throttle * S :=
  match ev with
  | Call args => throttle_call limit args st
  | Wait ms => throttle_wait ms st
  end.

Definition throttle_run (limit : N) (evs : list (Event Args))
    (st : Throttle * S) : Throttle * S :=
  foldl (throttle_step limit) st evs.

(** The flag is set exactly while one timer is pending. *)
Definition throttle_wf (limit : N) (t : Throttle) : Prop :=
  if inThrottle t then ∃ r, release t = [r] ∧ r ≤ limit else release t = [].

(** *** debounce *)

(** The closure of [debounce(func, wait)]: the pending timer, if any, with
    its remaining delay and the arguments its callback [later] holds. *)
Definition Debounce : Type := option (N * Args).

(** [executedFunction(...args)]: [clearTimeout(timeout)], then
    [timeout = setTimeout(later, wait)]. *)
Definition debounce_call (wait : N) (args : Args) (st : Debounce * S)
    : Debounce * S :=
  (Some (setTimeout_delay wait, args), st.2).

(** [ms] milliseconds pass: a timer that is due runs [later]. *)
Definition debounce_wait (ms : N) (st : Debounce * S) : Debounce * S :=
  match st.1 with
  | Some (r, args) =>
      if r <=? ms then (None, func args st.2) else (Some (r - ms, args), st.2)
  | None => st
  end.

Definition debounce_step (wait : N) (st : Debounce * S) (ev : Event Args)
    : Debounce * S :=
  match ev with
  | Call args => debounce_call wait args st
  | Wait ms => debounce_wait ms st
  end.

Definition debounce_run (wait : N) (evs : list (Event Args))
    (st : Debounce * S) : Debounce * S :=
  foldl (debounce_step wait) st evs.

End rate.

(** The time that passes during a list of events. *)
Definition total_wait {Args} (evs : list (Event Args)) : N :=
  foldr (λ ev n, match ev with Wait ms => ms + n | Call _ => n end) 0 evs.

(** Calls that follow one another, each after a pause. *)
Definition burst {Args} (calls : list (N * Args)) : list (Event Args) :=
  calls ≫= λ c, [Wait c.1; Call c.2].

End Rate.

(** ** The scroll listeners of the window *)

Module Scrolling.

Import Nav Rate.

(** What the scroll listeners read and write. *)
Record Window := mkWindow {
  scrollY : Z;                          (* window.scrollY *)
  nav : option (list jsstring);         (* classList of .site-nav, if present *)
  navLinks : list NavLink
}.

(** The two functions that are rate-limited; neither takes arguments. *)
Definition nav_scroll (_ : unit) (w : Window) : Window :=
  mkWindow (scrollY w) (navScroll (scrollY w) (nav w)) (navLinks w).
Definition highlight (sections : list Section) (_ : unit) (w : Window) : Window :=
  mkWindow (scrollY w) (nav w)
           (highlightActiveSection (scrollY w) sections (navLinks w)).

(** The closures of [handleNavScroll = throttle(..., 100)] and
    [debouncedHighlight = debounce(highlightActiveSection, 50)], and the
    window. *)
Record Scroller := mkScroller {
  handleNavScroll : Throttle;
  debouncedHighlight : @Debounce unit;
  window : Window
}.

Inductive ScrollEvent :=
  | Scroll (y : Z)     (* the page is scrolled to [y]: a scroll event *)
  | Idle (ms : N).     (* [ms] milliseconds pass *)

(** A scroll event runs the listeners in the order of their registration;
    when time passes, the timers of both closures run. *)
Definition scroll_step (sections : list Section) (st : Scroller)
    (ev : ScrollEvent) : Scroller :=
  match ev with
  | Scroll y =>
      let w := mkWindow y (nav (window st)) (navLinks (window st)) in
      let '(t, w) := throttle_call nav_scroll 100 tt (handleNavScroll st, w) in
      let '(d, w) := debounce_call 50 tt (debouncedHighlight st, w) in
      mkScroller t d w
  | Idle ms =>
      let '(t, w) := throttle_wait ms (handleNavScroll st, window st) in
      let '(d, w) :=
        debounce_wait (highlight sections) ms (debouncedHighlight st, w) in
      mkScroller t d w
  end.

Definition scroll_run (sections : list Section) (evs : list ScrollEvent)
    (st : Scroller) : Scroller :=
  foldl (scroll_step sections) st evs.

(** The page when the script has run and no scroll event has come yet. *)
Definition scroller_init (w : Window) : Scroller :=
  mkScroller throttle_init None w.

(** Scroll events in quick succession: each comes after a pause. *)
Definition scroll_burst (moves : list (N * Z)) : list ScrollEvent :=
  moves ≫= λ m, [Idle m.1; Scroll m.2].

Definition has_scrolled (w : Window) : option bool :=
  classList_contains (js "scrolled") <$> nav w.

End Scrolling.

Import Regex Form.

(** * Properties *)

(** ** Properties of the regular-expression matcher *)

Lemma greedy_spec a k s :
  greedy a k s = true ↔
  ∃ u v, s = u ++ v ∧ Forall (λ c, atom_matches a c = true) u ∧ k v = true.
Proof.
  induction s as [|c s IH]; simpl.
  - split.
    + intros Hk. exists [], []. auto.
    + intros (u & v & Huv & _ & Hk).
      symmetry in Huv. apply app_eq_nil in Huv as [-> ->]. done.
  - rewrite orb_true_iff, andb_true_iff, IH. split.
    + intros [[Hc (u & v & -> & Hu & Hk)] | Hk].
      * exists (c :: u), v. auto.
      * exists [], (c :: s). auto.
    + intros (u & v & Huv & Hu & Hk). destruct u as [|c' u]; simpl in Huv.
      * right. by subst v.
      * left. injection Huv as -> ->. inversion Hu; subst.
        split; [done|]. exists u, v. auto.
Qed.

Lemma plus_spec a k s :
  match s with
  | [] => false
  | c :: s' => atom_matches a c && greedy a k s'
  end = true ↔
  ∃ u v, s = u ++ v ∧ u ≠ [] ∧
         Forall (λ c, atom_matches a c = true) u ∧ k v = true.
Proof.
  destruct s as [|c s].
  - split; [done|]. intros (u & v & Huv & Hne & _).
    symmetry in Huv. apply app_eq_nil in Huv as [-> _]. done.
  - rewrite andb_true_iff, greedy_spec. split.
    + intros [Hc (u & v & -> & Hu & Hk)]. exists (c :: u), v. auto.
    + intros (u & v & Huv & Hne & Hu & Hk). destruct u as [|c' u]; [done|].
      injection Huv as -> ->. inversion Hu; subst.
      split; [done|]. exists u, v. auto.
Qed.

Lemma plain_char_atom c :
  atom_matches (NegClass [ClassSpace; ClassChar at_sign]) c = true ↔
  plain_char c.
Proof.
  unfold plain_char; simpl. rewrite orb_false_r, negb_true_iff, orb_false_iff.
  rewrite N.eqb_neq. done.
Qed.

Lemma plain_chars_atom u :
  Forall (λ c, atom_matches (NegClass [ClassSpace; ClassChar at_sign]) c = true) u ↔
  Forall plain_char u.
Proof. apply Forall_proper; [|done]. intros c. apply plain_char_atom. Qed.

Lemma match_terms_plus a ts s :
  match_terms (mkTerm a OneOrMore :: ts) s = true ↔
  ∃ u v, s = u ++ v ∧ u ≠ [] ∧
         Forall (λ c, atom_matches a c = true) u ∧ match_terms ts v = true.
Proof. rewrite <- plus_spec. by destruct s. Qed.

Lemma match_terms_char c ts s :
  match_terms (mkTerm (Char c) Once :: ts) s = true ↔
  ∃ v, s = c :: v ∧ match_terms ts v = true.
Proof.
  destruct s as [|c' s]; simpl.
  - split; [done|]. by intros (v & ? & _).
  - rewrite andb_true_iff, N.eqb_eq. split.
    + intros [-> Hts]. eauto.
    + intros (v & [= -> ->] & Hts). done.
Qed.

Lemma match_terms_end s : match_terms [] s = true ↔ s = [].
Proof. by destruct s. Qed.

(** C3: [validateEmail x] is true exactly when [x] matches
    [^[^\s@]+@[^\s@]+\.[^\s@]+$], read as: one or more non-space/non-@
    characters, "@", one or more such characters, ".", one or more such
    characters.  "a@b.co" is accepted, "a@b" and "a b@c.com" are rejected. *)
Theorem validateEmail_iff_pattern :
  (∀ x : jsstring, validateEmail x = true ↔ matches_email_pattern x) ∧
  validateEmail (js "a@b.co") = true ∧
  validateEmail (js "a@b") = false ∧
  validateEmail (js "a b@c.com") = false.
Proof.
  split; [|by vm_compute].
  intros x. unfold validateEmail, Regex.test, emailRegex, matches_email_pattern.
  rewrite match_terms_plus. split.
  - intros (l & v & -> & Hl & Hal & Hv).
    apply match_terms_char in Hv as (v1 & -> & Hv).
    apply match_terms_plus in Hv as (d & v2 & -> & Hd & Had & Hv).
    apply match_terms_char in Hv as (v3 & -> & Hv).
    apply match_terms_plus in Hv as (t & v4 & -> & Ht & Hat & Hv).
    apply match_terms_end in Hv as ->.
    exists l, d, t. rewrite app_nil_r.
    rewrite !plain_chars_atom in *. done.
  - intros (l & d & t & -> & Hl & Hd & Ht & Hal & Had & Hat).
    exists l, ([at_sign] ++ d ++ [dot] ++ t).
    rewrite plain_chars_atom. repeat split; try done.
    apply match_terms_char. exists (d ++ [dot] ++ t). split; [done|].
    apply match_terms_plus. exists d, ([dot] ++ t).
    rewrite plain_chars_atom. repeat split; try done.
    apply match_terms_char. exists t. split; [done|].
    apply match_terms_plus. exists t, [].
    rewrite plain_chars_atom, app_nil_r. done.
Qed.

(** ** Validation *)

Section validation.

Implicit Types (p q : Page) (f g : Field) (i j e : nat) (id : jsstring).

#[local] Instance same_data_equiv : Equivalence same_data.
Proof.
  unfold same_data. split.
  - by intros p.
  - by intros p q.
  - intros p q r Hpq Hqr. by rewrite Hpq.
Qed.

Lemma core_set_annotation a b c : core (set_annotation a b c) = core c.
Proof. done. Qed.

Lemma fmap_core_alter a b i (l : list Input) :
  core <$> alter (set_annotation a b) i l = core <$> l.
Proof.
  rewrite (list_fmap_alter core _ id).
  - by apply list_alter_id.
  - by apply Forall_true.
Qed.

Lemma showError_same_data i m p : same_data (showError i m p) p.
Proof.
  unfold same_data, showError.
  destruct (controls p !! i ≫= error_message); simpl; apply fmap_core_alter.
Qed.

Lemma clearError_same_data i p : same_data (clearError i p) p.
Proof.
  unfold same_data, clearError.
  destruct (controls p !! i ≫= error_message); simpl; apply fmap_core_alter.
Qed.

Lemma showError_surroundings i m p :
  surroundings (showError i m p) = surroundings p.
Proof. unfold showError. by destruct (controls p !! i ≫= error_message). Qed.

Lemma clearError_surroundings i p :
  surroundings (clearError i p) = surroundings p.
Proof. unfold clearError. by destruct (controls p !! i ≫= error_message). Qed.

Lemma same_data_lookup p q i :
  same_data p q → core <$> controls p !! i = core <$> controls q !! i.
Proof. intros H. by rewrite <- !list_lookup_fmap, H. Qed.

Lemma querySelector_core id p :
  querySelector id p =
  fst <$> list_find (λ k, k.1.1.1.1 = id) (core <$> controls p).
Proof.
  unfold querySelector. rewrite list_find_fmap.
  rewrite <- option_fmap_compose.
  by destruct (list_find _ (controls p)) as [[]|].
Qed.

Lemma querySelector_same_data id p q :
  same_data p q → querySelector id p = querySelector id q.
Proof. intros H. by rewrite !querySelector_core, H. Qed.

Lemma value_of_same_data i p q :
  same_data p q → value_of i p = value_of i q.
Proof.
  intros H%(same_data_lookup _ _ i). unfold value_of.
  by destruct (controls p !! i), (controls q !! i); simplify_eq/=.
Qed.

Lemma querySelector_Some id p i :
  querySelector id p = Some i →
  ∃ c, controls p !! i = Some c ∧ input_id c = id.
Proof.
  unfold querySelector. intros Hq.
  destruct (list_find _ (controls p)) as [[i' c]|] eqn:Hf; simplify_eq/=.
  apply list_find_Some in Hf as (? & ? & _). eauto.
Qed.

Lemma trim_empty_iff (s : jsstring) : negb (truthy_string s) = true ↔ s = [].
Proof. by destruct s. Qed.

(** The three blocks of [validateForm] are instances of [validate_field]. *)
Lemma name_block p (b : bool) i :
  (let name := trim (value_of i p) in
   if negb (truthy_string name) then
     (showError i (js "Please enter your name") p, false)
   else if (length name <? 2)%nat then
     (showError i (js "Name must be at least 2 characters") p, false)
   else (clearError i p, b)) =
  match name_rule (value_of i p) with
  | Some r => (showError i (name_text r) p, false)
  | None => (clearError i p, b)
  end.
Proof.
  unfold name_rule. cbv zeta.
  destruct (trim (value_of i p)) as [|c s] eqn:Ht; [done|].
  rewrite decide_False by done. simpl negb. cbv iota.
  destruct (Nat.ltb_spec (length (c :: s)) 2).
  - by rewrite decide_True.
  - rewrite decide_False by lia. done.
Qed.

Lemma email_block p (b : bool) i :
  (let email := trim (value_of i p) in
   if negb (truthy_string email) then
     (showError i (js "Please enter your email") p, false)
   else if negb (validateEmail email) then
     (showError i (js "Please enter a valid email address") p, false)
   else (clearError i p, b)) =
  match email_rule (value_of i p) with
  | Some r => (showError i (email_text r) p, false)
  | None => (clearError i p, b)
  end.
Proof.
  unfold email_rule. cbv zeta.
  destruct (trim (value_of i p)) as [|c s] eqn:Ht; [done|].
  rewrite decide_False by done. simpl negb. cbv iota.
  by destruct (validateEmail (c :: s)).
Qed.

Lemma message_block p (b : bool) i :
  (let message := trim (value_of i p) in
   if negb (truthy_string message) then
     (showError i (js "Please enter a message") p, false)
   else if (length message <? 10)%nat then
     (showError i (js "Message must be at least 10 characters") p, false)
   else (clearError i p, b)) =
  match message_rule (value_of i p) with
  | Some r => (showError i (message_text r) p, false)
  | None => (clearError i p, b)
  end.
Proof.
  unfold message_rule. cbv zeta.
  destruct (trim (value_of i p)) as [|c s] eqn:Ht; [done|].
  rewrite decide_False by done. simpl negb. cbv iota.
  destruct (Nat.ltb_spec (length (c :: s)) 10).
  - by rewrite decide_True.
  - rewrite decide_False by lia. done.
Qed.

Lemma validate_field_same_data st f : same_data (validate_field st f).1 st.1.
Proof.
  unfold validate_field. destruct (querySelector _ _); [|done].
  destruct (field_rule _ _); simpl.
  - apply showError_same_data.
  - apply clearError_same_data.
Qed.

Lemma validate_field_surroundings st f :
  surroundings (validate_field st f).1 = surroundings st.1.
Proof.
  unfold validate_field. destruct (querySelector _ _); [|done].
  destruct (field_rule _ _); simpl.
  - apply showError_surroundings.
  - apply clearError_surroundings.
Qed.

(** [validateForm] runs the three blocks in order. *)
Lemma validateForm_fields p :
  validateForm p = foldl validate_field (p, true) fields.
Proof.
  unfold validateForm. cbv zeta. simpl foldl.
  set (st1 := validate_field (p, true) name_field).
  set (st2 := validate_field st1 email_field).
  assert (H1 : same_data st1.1 p) by apply (validate_field_same_data (p, true)).
  assert (H2 : same_data st2.1 p).
  { etrans; [apply validate_field_same_data|done]. }
  assert (E1 : match querySelector (js "name") p with
    | Some input =>
        if negb (truthy_string (trim (value_of input p))) then
          (showError input (js "Please enter your name") p, false)
        else if (length (trim (value_of input p)) <? 2)%nat then
          (showError input (js "Name must be at least 2 characters") p, false)
        else (clearError input p, true)
    | None => (p, true)
    end = st1).
  { unfold st1, validate_field. simpl.
    destruct (querySelector (js "name") p); [|done]. apply name_block. }
  rewrite E1. destruct st1 as [p1 b1]. simpl in H1, st2, H2.
  assert (E2 : match querySelector (js "email") p with
    | Some input =>
        if negb (truthy_string (trim (value_of input p1))) then
          (showError input (js "Please enter your email") p1, false)
        else if negb (validateEmail (trim (value_of input p1))) then
          (showError input (js "Please enter a valid email address") p1, false)
        else (clearError input p1, b1)
    | None => (p1, b1)
    end = st2).
  { unfold st2, validate_field. simpl.
    rewrite (querySelector_same_data _ _ _ H1).
    destruct (querySelector (js "email") p); [|done]. apply email_block. }
  rewrite E2. destruct st2 as [p2 b2]. simpl in H2.
  set (st3 := validate_field (p2, b2) message_field).
  assert (E3 : match querySelector (js "message") p with
    | Some input =>
        if negb (truthy_string (trim (value_of input p2))) then
          (showError input (js "Please enter a message") p2, false)
        else if (length (trim (value_of input p2)) <? 10)%nat then
          (showError input (js "Message must be at least 10 characters") p2, false)
        else (clearError input p2, b2)
    | None => (p2, b2)
    end = st3).
  { unfold st3, validate_field. simpl.
    rewrite (querySelector_same_data _ _ _ H2).
    destruct (querySelector (js "message") p); [|done]. apply message_block. }
  rewrite E3. by destruct st3.
Qed.

Lemma fold_same_data fs st : same_data (foldl validate_field st fs).1 st.1.
Proof.
  revert st. induction fs as [|f fs IH]; intros st; simpl; [done|].
  etrans; [apply IH|apply validate_field_same_data].
Qed.

Lemma fold_surroundings fs st :
  surroundings (foldl validate_field st fs).1 = surroundings st.1.
Proof.
  revert st. induction fs as [|f fs IH]; intros st; simpl; [done|].
  by rewrite IH, validate_field_surroundings.
Qed.

Lemma field_valid_same_data f p q :
  same_data p q → field_valid f p = field_valid f q.
Proof.
  intros H. unfold field_valid. rewrite (querySelector_same_data _ _ _ H).
  destruct (querySelector _ q); [|done]. by rewrite (value_of_same_data _ _ _ H).
Qed.

Lemma error_ref_same_data f p q : same_data p q → error_ref f p = error_ref f q.
Proof.
  intros H. unfold error_ref. rewrite (querySelector_same_data _ _ _ H).
  destruct (querySelector _ q) as [i|]; [simpl|done].
  pose proof (same_data_lookup _ _ i H) as Hi.
  by destruct (controls p !! i), (controls q !! i); simplify_eq/=.
Qed.

Lemma validate_field_valid st f :
  (validate_field st f).2 = st.2 && field_valid f st.1.
Proof.
  unfold validate_field, field_valid.
  destruct (querySelector _ _); [|by rewrite andb_true_r].
  destruct (field_rule _ _); simpl.
  - by rewrite andb_false_r.
  - by rewrite andb_true_r.
Qed.

Lemma forallb_pointwise {A} (h k : A → bool) (l : list A) :
  (∀ x, h x = k x) → forallb h l = forallb k l.
Proof. intros E. induction l as [|x l IH]; simpl; [done|]. by rewrite E, IH. Qed.

Lemma fold_valid fs st :
  (foldl validate_field st fs).2 = st.2 && forallb (λ f, field_valid f st.1) fs.
Proof.
  revert st. induction fs as [|f fs IH]; intros st; simpl.
  - by rewrite andb_true_r.
  - rewrite IH, validate_field_valid, <- andb_assoc. do 2 f_equal.
    apply forallb_pointwise. intros g. apply field_valid_same_data,
    validate_field_same_data.
Qed.

(** Annotations of the controls. *)

Lemma annotation_alter a b i j p (h : Page → Page) :
  (∀ q, controls (h q) = controls q) →
  annotation j (set_controls (alter (set_annotation a b) i) (h p)) =
  if decide (i = j) then (λ _, (a, b)) <$> controls p !! j else annotation j p.
Proof.
  intros Hh. unfold annotation. simpl. rewrite Hh.
  case_decide as Hij.
  - subst j. rewrite list_lookup_alter_eq. by destruct (controls p !! i).
  - by rewrite list_lookup_alter_ne.
Qed.

Lemma showError_annotation i j m p :
  annotation j (showError i m p) =
  if decide (i = j)
  then (λ _, (Some (js "true"), js "#ff6b6b")) <$> controls p !! j
  else annotation j p.
Proof.
  unfold showError. destruct (controls p !! i ≫= error_message).
  - by apply (annotation_alter _ _ _ _ _ (set_errorElements _)).
  - by apply (annotation_alter _ _ _ _ _ id).
Qed.

Lemma clearError_annotation i j p :
  annotation j (clearError i p) =
  if decide (i = j) then (λ _, (None, [])) <$> controls p !! j
  else annotation j p.
Proof.
  unfold clearError. destruct (controls p !! i ≫= error_message).
  - by apply (annotation_alter _ _ _ _ _ (set_errorElements _)).
  - by apply (annotation_alter _ _ _ _ _ id).
Qed.

Lemma validate_field_annotation st f i :
  querySelector (field_id f) st.1 = Some i →
  annotation i (validate_field st f).1 =
  Some (expected_annotation (field_rule f (value_of i st.1))).
Proof.
  intros Hq. unfold validate_field. rewrite Hq.
  apply querySelector_Some in Hq as (c & Hc & _).
  destruct (field_rule _ _); simpl.
  - by rewrite showError_annotation, decide_True, Hc.
  - by rewrite clearError_annotation, decide_True, Hc.
Qed.

Lemma validate_field_annotation_other st f j :
  querySelector (field_id f) st.1 ≠ Some j →
  annotation j (validate_field st f).1 = annotation j st.1.
Proof.
  intros Hq. unfold validate_field.
  destruct (querySelector _ _) as [i|]; [|done].
  destruct (field_rule _ _); simpl.
  - rewrite showError_annotation, decide_False; [done|congruence].
  - rewrite clearError_annotation, decide_False; [done|congruence].
Qed.

Lemma fold_annotation_other fs st j :
  (∀ g, g ∈ fs → querySelector (field_id g) st.1 ≠ Some j) →
  annotation j (foldl validate_field st fs).1 = annotation j st.1.
Proof.
  revert st. induction fs as [|f fs IH]; intros st Hfs; simpl; [done|].
  rewrite IH.
  - apply validate_field_annotation_other, Hfs. by left.
  - intros g Hg.
    rewrite (querySelector_same_data _ _ _ (validate_field_same_data st f)).
    apply Hfs. by right.
Qed.

Lemma querySelector_inj f g p i :
  querySelector (field_id f) p = Some i →
  querySelector (field_id g) p = Some i → field_id f = field_id g.
Proof.
  intros (c & Hc & <-)%querySelector_Some (c' & Hc' & <-)%querySelector_Some.
  congruence.
Qed.

Lemma fold_annotation fs st f i :
  NoDup (field_id <$> fs) → f ∈ fs →
  querySelector (field_id f) st.1 = Some i →
  annotation i (foldl validate_field st fs).1 =
  Some (expected_annotation (field_rule f (value_of i st.1))).
Proof.
  revert st. induction fs as [|g fs IH]; intros st Hnd Hf Hq.
  { by apply elem_of_nil in Hf. }
  simpl in *. apply NoDup_cons in Hnd as [Hg Hnd].
  pose proof (validate_field_same_data st g) as Hsd.
  apply elem_of_cons in Hf as [->|Hf].
  - rewrite fold_annotation_other; [by apply validate_field_annotation|].
    intros h Hh Hqh. rewrite (querySelector_same_data _ _ _ Hsd) in Hqh.
    apply Hg. rewrite (querySelector_inj _ _ _ _ Hq Hqh).
    apply list_elem_of_fmap. eauto.
  - rewrite IH; [|done..|by rewrite (querySelector_same_data _ _ _ Hsd)].
    by rewrite (value_of_same_data _ _ _ Hsd).
Qed.

(** Error elements. *)

Lemma showError_errorElements i m p :
  errorElements (showError i m p) =
  match controls p !! i ≫= error_message with
  | Some e => alter (λ _, mkErrorElement m (js "block")) e (errorElements p)
  | None => errorElements p
  end.
Proof. unfold showError. by destruct (controls p !! i ≫= error_message). Qed.

Lemma clearError_errorElements i p :
  errorElements (clearError i p) =
  match controls p !! i ≫= error_message with
  | Some e => alter (λ _, mkErrorElement [] (js "none")) e (errorElements p)
  | None => errorElements p
  end.
Proof. unfold clearError. by destruct (controls p !! i ≫= error_message). Qed.

Lemma validate_field_error st f i e :
  querySelector (field_id f) st.1 = Some i →
  error_ref f st.1 = Some e →
  errorElements (validate_field st f).1 !! e =
  (λ _, expected_error f (field_rule f (value_of i st.1))) <$>
    errorElements st.1 !! e.
Proof.
  intros Hq He. unfold error_ref in He. unfold validate_field.
  rewrite Hq in *. simpl in He.
  destruct (field_rule _ _); cbn [fst].
  - by rewrite showError_errorElements, He, list_lookup_alter_eq.
  - by rewrite clearError_errorElements, He, list_lookup_alter_eq.
Qed.

Lemma validate_field_error_other st f e :
  error_ref f st.1 ≠ Some e →
  errorElements (validate_field st f).1 !! e = errorElements st.1 !! e.
Proof.
  intros He. unfold error_ref in He. unfold validate_field.
  destruct (querySelector _ _) as [i|]; [simpl in He|done].
  destruct (field_rule _ _); cbn [fst].
  - rewrite showError_errorElements.
    destruct (controls st.1 !! i ≫= error_message) as [e'|]; [|done].
    apply list_lookup_alter_ne. congruence.
  - rewrite clearError_errorElements.
    destruct (controls st.1 !! i ≫= error_message) as [e'|]; [|done].
    apply list_lookup_alter_ne. congruence.
Qed.

Lemma fold_error_other fs st e :
  (∀ g, g ∈ fs → error_ref g st.1 ≠ Some e) →
  errorElements (foldl validate_field st fs).1 !! e = errorElements st.1 !! e.
Proof.
  revert st. induction fs as [|f fs IH]; intros st Hfs; simpl; [done|].
  rewrite IH.
  - apply validate_field_error_other, Hfs. by left.
  - intros g Hg.
    rewrite (error_ref_same_data _ _ _ (validate_field_same_data st f)).
    apply Hfs. by right.
Qed.

Lemma fold_error fs st f i e :
  NoDup (field_id <$> fs) → f ∈ fs →
  querySelector (field_id f) st.1 = Some i →
  error_ref f st.1 = Some e →
  (∀ g, g ∈ fs → field_id g ≠ field_id f → error_ref g st.1 ≠ Some e) →
  errorElements (foldl validate_field st fs).1 !! e =
  (λ _, expected_error f (field_rule f (value_of i st.1))) <$>
    errorElements st.1 !! e.
Proof.
  revert st. induction fs as [|g fs IH]; intros st Hnd Hf Hq He Hown.
  { by apply elem_of_nil in Hf. }
  simpl in *. apply NoDup_cons in Hnd as [Hg Hnd].
  pose proof (validate_field_same_data st g) as Hsd.
  apply elem_of_cons in Hf as [->|Hf].
  - rewrite fold_error_other; [by apply validate_field_error|].
    intros h Hh. rewrite (error_ref_same_data _ _ _ Hsd).
    apply Hown; [by right|]. intros Hid. apply Hg. rewrite <- Hid.
    apply list_elem_of_fmap. eauto.
  - assert (field_id g ≠ field_id f) as Hne.
    { intros Hid. apply Hg. rewrite Hid. apply list_elem_of_fmap. eauto. }
    rewrite IH; [| done | done
                 | by rewrite (querySelector_same_data _ _ _ Hsd)
                 | by rewrite (error_ref_same_data _ _ _ Hsd) | ].
    + rewrite (value_of_same_data _ _ _ Hsd).
      rewrite validate_field_error_other; [done|].
      apply Hown; [by left|done].
    + intros h Hh Hid. rewrite (error_ref_same_data _ _ _ Hsd).
      apply Hown; [by right|done].
Qed.

Lemma fields_NoDup : NoDup (field_id <$> fields).
Proof. apply (bool_decide_unpack _). by vm_compute. Qed.

(** What [validateForm] leaves on the page, field by field. *)
Lemma validateForm_valid p :
  (validateForm p).2 = forallb (λ f, field_valid f p) fields.
Proof. by rewrite validateForm_fields, fold_valid. Qed.

Lemma validateForm_same_data p : same_data (validateForm p).1 p.
Proof. rewrite validateForm_fields. apply (fold_same_data _ (p, true)). Qed.

Lemma validateForm_surroundings p :
  surroundings (validateForm p).1 = surroundings p.
Proof. rewrite validateForm_fields. apply (fold_surroundings _ (p, true)). Qed.

Lemma validateForm_annotation p f i :
  f ∈ fields → querySelector (field_id f) p = Some i →
  annotation i (validateForm p).1 =
  Some (expected_annotation (field_rule f (value_of i p))).
Proof.
  intros Hf Hq. rewrite validateForm_fields.
  by apply (fold_annotation _ (p, true)); [apply fields_NoDup|..].
Qed.

Lemma validateForm_error p f i e :
  f ∈ fields → querySelector (field_id f) p = Some i →
  own_error_element f p e →
  errorElements (validateForm p).1 !! e =
  (λ _, expected_error f (field_rule f (value_of i p))) <$> errorElements p !! e.
Proof.
  intros Hf Hq [He Hown]. rewrite validateForm_fields.
  by apply (fold_error _ (p, true)); [apply fields_NoDup|..].
Qed.

(** ** Submission *)

Lemma clear_previous_status_same_data p : same_data (clear_previous_status p) p.
Proof. done. Qed.

Lemma form_valid_same_data p q : same_data p q → form_valid p = form_valid q.
Proof.
  intros H. apply forallb_pointwise. intros f. by apply field_valid_same_data.
Qed.

Lemma FormData_get_same_data key p q :
  same_data p q → FormData_get key p = FormData_get key q.
Proof.
  intros H. unfold FormData_get.
  assert (∀ r, to_scalar_values ∘ value ∘ snd <$>
                 list_find (λ c, input_name c = key) (controls r)
             = (λ k, to_scalar_values k.2.1.1.2) <$>
               list_find (λ k, k.1.1.1.2 = key) (core <$> controls r)) as E.
  { intros r. rewrite list_find_fmap, <- option_fmap_compose.
    by destruct (list_find _ (controls r)) as [[]|]. }
  by rewrite !E, H.
Qed.

Lemma form_data_same_data p q : same_data p q → form_data p = form_data q.
Proof.
  intros H. unfold form_data. by rewrite !(FormData_get_same_data _ _ _ H).
Qed.

(** The handler stops after validation when the form is not valid. *)
Lemma submit_invalid o p :
  form_valid p = false →
  submit o p = (validateForm (clear_previous_status p)).1.
Proof.
  intros Hv. unfold submit.
  pose proof (validateForm_valid (clear_previous_status p)) as Hb.
  fold (form_valid (clear_previous_status p)) in Hb.
  rewrite (form_valid_same_data _ p), Hv in Hb by done.
  destruct (validateForm (clear_previous_status p)) as [p1 b]. simpl in *.
  by subst b.
Qed.

(** Otherwise it runs the three blocks on the page in its loading state. *)
Lemma submit_valid o p :
  form_valid p = true →
  let p1 := (validateForm (clear_previous_status p)).1 in
  submit o p =
  try_catch_finally (try_block (form_data p) o) catch_block
    (finally_block (innerHTML <$> submitButton p)) (show_loading p1).
Proof.
  intros Hv. unfold submit.
  pose proof (validateForm_valid (clear_previous_status p)) as Hb.
  fold (form_valid (clear_previous_status p)) in Hb.
  rewrite (form_valid_same_data _ p), Hv in Hb by done.
  pose proof (validateForm_same_data (clear_previous_status p)) as Hsd.
  pose proof (validateForm_surroundings (clear_previous_status p)) as Hsr.
  destruct (validateForm (clear_previous_status p)) as [p1 b]. simpl in *.
  subst b. simpl. rewrite (form_data_same_data p1 p) by done.
  by injection Hsr as -> _ _ _ _.
Qed.


Lemma try_block_fails data o err q :
  fails_with o err → try_block data o q = (logged data q, inl err).
Proof.
  intros H. unfold try_block.
  destruct H as [r|r| |result Hnn Hs]; try done.
  destruct result; try done; cbv [mbind Exn_bind fetch response_json mret
    Exn_ret property throw]; cbv beta iota; rewrite Hs; done.
Qed.

Lemma try_block_succeeds data o q :
  succeeds o → try_block data o q = (succeeded (logged data q), inr tt).
Proof.
  intros (result & -> & Hnn & Hs). unfold try_block.
  destruct result; try done; cbv [mbind Exn_bind fetch response_json mret
    Exn_ret property throw]; cbv beta iota; rewrite Hs; done.
Qed.

Lemma outcome_cases o : succeeds o ∨ ∃ err, fails_with o err.
Proof.
  destruct o as [r|r|result].
  - right. eexists. constructor.
  - right. eexists. constructor.
  - destruct (truthy (member result (js "success"))) eqn:Hs.
    + left. exists result. by destruct result.
    + right. destruct result; eexists; by constructor.
Qed.

Lemma submit_failure o err p :
  form_valid p = true → fails_with o err →
  submit o p =
  finally_block (innerHTML <$> submitButton p)
    (catch_block err
       (logged (form_data p)
          (show_loading (validateForm (clear_previous_status p)).1))).
Proof.
  intros Hv Hf. rewrite submit_valid by done. cbv zeta.
  unfold try_catch_finally. by rewrite (try_block_fails _ _ _ _ Hf).
Qed.

Lemma submit_success o p :
  form_valid p = true → succeeds o →
  submit o p =
  finally_block (innerHTML <$> submitButton p)
    (succeeded
       (logged (form_data p)
          (show_loading (validateForm (clear_previous_status p)).1))).
Proof.
  intros Hv Hs. rewrite submit_valid by done. cbv zeta.
  unfold try_catch_finally. by rewrite (try_block_succeeds _ _ _ Hs).
Qed.

(** The page after validation of a valid or invalid form, seen from the
    rest of the handler. *)
Lemma validated_surroundings p :
  let p1 := (validateForm (clear_previous_status p)).1 in
  submitButton p1 = submitButton p ∧
  formStatus p1 =
    (λ s, set_status_className (js "form-status") (set_status_text [] s)) <$>
      formStatus p ∧
  timers p1 = timers p ∧ requests p1 = requests p ∧ console p1 = console p.
Proof.
  pose proof (validateForm_surroundings (clear_previous_status p)) as H.
  injection H as H1 H2 H3 H4 H5. cbv zeta. by rewrite H1, H2, H3, H4, H5.
Qed.

Lemma validated_same_data p :
  same_data (validateForm (clear_previous_status p)).1 p.
Proof. apply (validateForm_same_data (clear_previous_status p)). Qed.

Lemma finally_block_others t q :
  controls (finally_block t q) = controls q ∧
  errorElements (finally_block t q) = errorElements q ∧
  formStatus (finally_block t q) = formStatus q ∧
  timers (finally_block t q) = timers q ∧
  requests (finally_block t q) = requests q ∧
  console (finally_block t q) = console q.
Proof.
  unfold finally_block.
  destruct (submitButton q), t as [text|]; try done. by destruct text.
Qed.

Lemma submit_requests o p :
  form_valid p = true →
  requests (submit o p) = requests p ++ [submit_request (form_data p)].
Proof.
  intros Hv. destruct (validated_surroundings p) as (_ & _ & _ & Hr & _).
  destruct (outcome_cases o) as [Hs|[err Hf]].
  - rewrite (submit_success _ _ Hv Hs).
    destruct (finally_block_others (innerHTML <$> submitButton p)
      (succeeded (logged (form_data p)
        (show_loading (validateForm (clear_previous_status p)).1))))
      as (_ & _ & _ & _ & -> & _).
    simpl. by rewrite Hr.
  - rewrite (submit_failure _ _ _ Hv Hf).
    destruct (finally_block_others (innerHTML <$> submitButton p)
      (catch_block err (logged (form_data p)
        (show_loading (validateForm (clear_previous_status p)).1))))
      as (_ & _ & _ & _ & -> & _).
    simpl. by rewrite Hr.
Qed.

Lemma submit_button o p :
  form_valid p = true →
  submitButton (submit o p) =
  (λ b, if truthy_string (innerHTML b) then mkButton false (innerHTML b)
        else mkButton true (js "<span>Sending...</span>")) <$> submitButton p.
Proof.
  intros Hv. destruct (validated_surroundings p) as (Hb & _).
  destruct (outcome_cases o) as [Hs|[err Hf]].
  - rewrite (submit_success _ _ Hv Hs). unfold finally_block. simpl.
    rewrite Hb. destruct (submitButton p) as [[d text]|]; simpl;
      [destruct text; simpl|]; by rewrite ?Hb.
  - rewrite (submit_failure _ _ _ Hv Hf). unfold finally_block. simpl.
    rewrite Hb. destruct (submitButton p) as [[d text]|]; simpl;
      [destruct text; simpl|]; by rewrite ?Hb.
Qed.

(** The submit button comes back enabled with its label when the label is
    not empty. *)
Lemma submit_restores_button o p b :
  form_valid p = true → submitButton p = Some b → innerHTML b ≠ [] →
  submitButton (submit o p) = Some (mkButton false (innerHTML b)).
Proof.
  intros Hv Hb Hne. rewrite submit_button, Hb by done. simpl.
  by destruct (innerHTML b).
Qed.

Lemma name_field_validated : name_field ∈ fields.
Proof. apply list_elem_of_here. Qed.
Lemma email_field_validated : email_field ∈ fields.
Proof. apply list_elem_of_further, list_elem_of_here. Qed.

Lemma field_fails_invalid p f i r :
  f ∈ fields → field_fails f p i r → form_valid p = false.
Proof.
  intros Hf [Hq Hr]. unfold form_valid.
  apply not_true_is_false. intros Hall.
  rewrite forallb_forall in Hall. apply list_elem_of_In in Hf.
  specialize (Hall f Hf). unfold field_valid in Hall.
  rewrite Hq, Hr in Hall. done.
Qed.

Lemma own_error_element_cleared f p e :
  own_error_element f p e → own_error_element f (clear_previous_status p) e.
Proof. done. Qed.

(** C1: when a field fails validation, the submit handler stops after the
    validator has shown the errors: no request is sent, the page is the one
    the validator left, and every failing field still carries its error
    annotation (aria-invalid, red border, and its message in the error
    element that belongs to it). *)
Theorem submit_invalid_aborts (o : Outcome) (p : Page) (f0 : Field)
    (i0 : nat) (r0 : Reason) :
  f0 ∈ fields → field_fails f0 p i0 r0 →
  requests (submit o p) = requests p ∧
  submit o p = (validateForm (clear_previous_status p)).1 ∧
  submitButton (submit o p) = submitButton p ∧
  timers (submit o p) = timers p ∧
  console (submit o p) = console p ∧
  ∀ f i r, f ∈ fields → field_fails f p i r →
    annotation i (submit o p) = Some (Some (js "true"), js "#ff6b6b") ∧
    ∀ e, own_error_element f p e →
      errorElements (submit o p) !! e =
      (λ _, mkErrorElement (field_text f r) (js "block")) <$>
        errorElements p !! e.
Proof.
  intros Hf0 Hfail0.
  rewrite (submit_invalid o p (field_fails_invalid _ _ _ _ Hf0 Hfail0)).
  destruct (validated_surroundings p) as (Hb & _ & Ht & Hr & Hc).
  split_and!; try done.
  intros f i r Hf [Hq Hr']. split.
  - rewrite (validateForm_annotation (clear_previous_status p) f i Hf Hq).
    change (value_of i (clear_previous_status p)) with (value_of i p).
    by rewrite Hr'.
  - intros e Hown.
    rewrite (validateForm_error (clear_previous_status p) f i e Hf Hq
              (own_error_element_cleared _ _ _ Hown)).
    change (value_of i (clear_previous_status p)) with (value_of i p).
    by rewrite Hr'.
Qed.

Lemma submit_invalid_aborts_witness :
  let p := sample_page "a" "a@b.co" "hello" "Send" in
  requests (submit (Resolves (JBool true)) p) = [] ∧
  annotation 0 (submit (Resolves (JBool true)) p) =
    Some (Some (js "true"), js "#ff6b6b").
Proof.
  intros p.
  assert (Hf : name_field ∈ fields) by apply list_elem_of_here.
  assert (Hfail : field_fails name_field p 0 TooShort) by (by vm_compute).
  destruct (submit_invalid_aborts (Resolves (JBool true)) p name_field 0
              TooShort Hf Hfail) as (Hr & _ & _ & _ & _ & Ha).
  split; [exact Hr|]. exact (proj1 (Ha name_field 0%nat TooShort Hf Hfail)).
Defined.

(** What [trim] does: it takes away the whitespace at both ends, and only
    that. *)
Lemma trimStart_spec (s : jsstring) :
  ∃ l, s = l ++ trimStart s ∧ Forall (λ c, is_whitespace c = true) l ∧
       ∀ c, head (trimStart s) = Some c → is_whitespace c = false.
Proof.
  induction s as [|c s (l & Hs & Hl & Hh)]; simpl.
  - exists []. by split_and!.
  - destruct (is_whitespace c) eqn:Hc.
    + exists (c :: l). split_and!; [by rewrite Hs at 1|by constructor|done].
    + exists []. split_and!; [done|done|]. simpl. by intros ? [= <-].
Qed.

Lemma trimEnd_spec (s : jsstring) :
  ∃ r, s = trimEnd s ++ r ∧ Forall (λ c, is_whitespace c = true) r ∧
       ∀ c, last (trimEnd s) = Some c → is_whitespace c = false.
Proof.
  unfold trimEnd.
  destruct (trimStart_spec (reverse s)) as (l & Hs & Hl & Hh).
  exists (reverse l). split_and!.
  - rewrite <- reverse_app, <- Hs. by rewrite reverse_involutive.
  - by apply Forall_reverse.
  - intros c. rewrite last_reverse. apply Hh.
Qed.

Lemma trim_spec (s : jsstring) :
  ∃ l r, s = l ++ trim s ++ r ∧
    Forall (λ c, is_whitespace c = true) l ∧
    Forall (λ c, is_whitespace c = true) r ∧
    (∀ c, head (trim s) = Some c → is_whitespace c = false) ∧
    (∀ c, last (trim s) = Some c → is_whitespace c = false).
Proof.
  unfold trim.
  destruct (trimStart_spec s) as (l & Hs & Hl & Hh).
  destruct (trimEnd_spec (trimStart s)) as (r & Ht & Hr & Hlast).
  exists l, r. split_and!; [by rewrite <- Ht|done..| |done].
  intros c Hc. apply Hh. rewrite Ht.
  destruct (trimEnd (trimStart s)); [done|]. done.
Qed.







Lemma name_rule_cases raw :
  (name_rule raw = None ↔ (2 ≤ length (trim raw))%nat) ∧
  (name_rule raw = Some Required ↔ trim raw = []) ∧
  (name_rule raw = Some TooShort ↔ length (trim raw) = 1%nat).
Proof.
  unfold name_rule. destruct (trim raw) as [|c s]; cbn [length];
    repeat case_decide; split_and!; split; (done || lia).
Qed.

Lemma message_rule_cases raw :
  (message_rule raw = None ↔ (10 ≤ length (trim raw))%nat) ∧
  (message_rule raw = Some Required ↔ trim raw = []) ∧
  (message_rule raw = Some TooShort ↔ (1 ≤ length (trim raw) < 10)%nat).
Proof.
  unfold message_rule. destruct (trim raw) as [|c s]; cbn [length];
    repeat case_decide; split_and!; split; (done || lia).
Qed.

Lemma email_rule_cases raw :
  (email_rule raw = None ↔ trim raw ≠ [] ∧ validateEmail (trim raw) = true) ∧
  (email_rule raw = Some Required ↔ trim raw = []) ∧
  (email_rule raw = Some InvalidFormat ↔
     trim raw ≠ [] ∧ validateEmail (trim raw) = false).
Proof.
  unfold email_rule. destruct (trim raw) as [|c s];
    [|destruct (validateEmail (c :: s))];
    repeat case_decide; split_and!; split; intros; try done;
    intuition congruence.
Qed.

(** C4: a field is reported valid exactly when its trimmed value is not
    empty and passes its rule. The name is valid iff its trimmed length is
    at least 2 (empty: Required, length 1: TooShort), the message iff its
    trimmed length is at least 10 (9 characters: TooShort, 10: valid), and
    the boolean returned by [validateForm] is the conjunction of the results
    of the fields. Trimming takes away the whitespace at both ends of the
    value and nothing else, so padding never makes a value long enough. *)
Theorem validateForm_field_rules :
  (∀ p, (validateForm p).2 =
        field_valid name_field p && field_valid email_field p &&
        field_valid message_field p) ∧
  (∀ p f i, f ∈ fields → querySelector (field_id f) p = Some i →
     (field_valid f p = true ↔ field_rule f (value_of i p) = None) ∧
     annotation i (validateForm p).1 =
       Some (expected_annotation (field_rule f (value_of i p))) ∧
     ∀ e, own_error_element f p e →
       errorElements (validateForm p).1 !! e =
       (λ _, expected_error f (field_rule f (value_of i p))) <$>
         errorElements p !! e) ∧
  (∀ raw,
     (name_rule raw = None ↔ (2 ≤ length (trim raw))%nat) ∧
     (name_rule raw = Some Required ↔ trim raw = []) ∧
     (name_rule raw = Some TooShort ↔ length (trim raw) = 1%nat)) ∧
  (∀ raw,
     (message_rule raw = None ↔ (10 ≤ length (trim raw))%nat) ∧
     (message_rule raw = Some Required ↔ trim raw = []) ∧
     (message_rule raw = Some TooShort ↔ (1 ≤ length (trim raw) < 10)%nat)) ∧
  (∀ raw,
     (email_rule raw = None ↔ trim raw ≠ [] ∧ validateEmail (trim raw) = true) ∧
     (email_rule raw = Some Required ↔ trim raw = []) ∧
     (email_rule raw = Some InvalidFormat ↔
        trim raw ≠ [] ∧ validateEmail (trim raw) = false)) ∧
  (∀ raw, ∃ l r,
     raw = l ++ trim raw ++ r ∧
     Forall (λ c, is_whitespace c = true) l ∧
     Forall (λ c, is_whitespace c = true) r ∧
     (∀ c, head (trim raw) = Some c → is_whitespace c = false) ∧
     (∀ c, last (trim raw) = Some c → is_whitespace c = false)) ∧
  trim (js "  a b ") = js "a b" ∧
  trim (9 :: js "al" ++ [10; 160]) = js "al" ∧
  name_rule (js "   ") = Some Required ∧
  name_rule (js " a ") = Some TooShort ∧
  name_rule (js "a ") = Some TooShort ∧
  name_rule (js " al ") = None ∧
  message_rule (js "123456789 ") = Some TooShort ∧
  message_rule (js " 123456789") = Some TooShort ∧
  message_rule (js " 1234567890 ") = None ∧
  email_rule (js " a@b.co ") = None ∧
  email_rule (js "a @b.co") = Some InvalidFormat ∧
  error_textContent <$>
    errorElements (validateForm (sample_page "a " " a@b.co " "123456789  " "Send")).1
  = [ js "Name must be at least 2 characters"; [];
      js "Message must be at least 10 characters" ] ∧
  name_rule (js "") = Some Required ∧
  name_rule (js "a") = Some TooShort ∧
  name_rule (js "al") = None ∧
  message_rule (js "123456789") = Some TooShort ∧
  message_rule (js "1234567890") = None ∧
  error_textContent <$>
    errorElements (validateForm (sample_page "" "a@b.co" "123456789" "Send")).1
  = [ js "Please enter your name"; [];
      js "Message must be at least 10 characters" ] ∧
  error_textContent <$>
    errorElements (validateForm (sample_page "a" "a@b" "1234567890" "Send")).1
  = [ js "Name must be at least 2 characters";
      js "Please enter a valid email address"; [] ] ∧
  (validateForm (sample_page "al" "a@b.co" "1234567890" "Send")).2 = true.
Proof.
  split; [|split; [|split; [|split; [|split; [|split]]]]].
  - intros p. rewrite validateForm_valid. simpl. by rewrite andb_true_r, andb_assoc.
  - intros p f i Hf Hq. split_and!.
    + unfold field_valid. rewrite Hq. apply bool_decide_eq_true.
    + by apply validateForm_annotation.
    + intros e Hown. by apply validateForm_error.
  - apply name_rule_cases.
  - apply message_rule_cases.
  - apply email_rule_cases.
  - apply trim_spec.
  - split_and!; by vm_compute.
Qed.

Lemma validateForm_field_rules_witness :
  let p := sample_page " a " " a@b.co " " 1234567890 " "Send" in
  annotation 0 (validateForm p).1 = Some (Some (js "true"), js "#ff6b6b") ∧
  annotation 2 (validateForm p).1 = Some (None, []).
Proof.
  intros p.
  destruct validateForm_field_rules as (_ & H & _).
  split.
  - refine (proj1 (proj2 (H p name_field 0%nat _ _))).
    + apply list_elem_of_here.
    + by vm_compute.
  - refine (proj1 (proj2 (H p message_field 2%nat _ _))).
    + apply list_elem_of_further, list_elem_of_further, list_elem_of_here.
    + by vm_compute.
Defined.

(** C5: submitting a valid form issues exactly one POST; its body has the
    fields access_key, name, email, message and subject, and the subject is
    "New message from " + name + " - Portfolio Contact Form" for the name
    that is submitted. *)
Theorem submit_posts_once (o : Outcome) (p : Page) :
  form_valid p = true →
  ∃ request,
    requests (submit o p) = requests p ++ [request] ∧
    method request = js "POST" ∧
    url request = js "https://api.web3forms.com/submit" ∧
    headers request = [ (js "Content-Type", js "application/json");
                        (js "Accept", js "application/json") ] ∧
    body request =
      JObject
        [ (js "access_key", JString access_key);
          (js "name", entry_json (FormData_get (js "name") p));
          (js "email", entry_json (FormData_get (js "email") p));
          (js "message", entry_json (FormData_get (js "message") p));
          (js "subject",
           JString (js "New message from " ++
                    entry_string (FormData_get (js "name") p) ++
                    js " - Portfolio Contact Form")) ].
Proof.
  intros Hv. exists (submit_request (form_data p)).
  by rewrite submit_requests.
Qed.

Lemma submit_posts_once_witness :
  let p := sample_page "Al" "a@b.co" "1234567890" "Send" in
  ∃ request,
    requests (submit (FetchRejects []) p) = [request] ∧
    body request =
      JObject
        [ (js "access_key", JString access_key);
          (js "name", JString (js "Al"));
          (js "email", JString (js "a@b.co"));
          (js "message", JString (js "1234567890"));
          (js "subject",
           JString (js "New message from Al - Portfolio Contact Form")) ].
Proof.
  intros p.
  assert (Hv : form_valid p = true) by (by vm_compute).
  destruct (submit_posts_once (FetchRejects []) p Hv)
    as (request & Hr & _ & _ & _ & Hb).
  exists request. split; [exact Hr|exact Hb].
Defined.





(** C2 (evaluation of the code where the claim fails): a submit button with
    an empty label is looked up, disabled and relabelled like any other, but
    the [finally] block tests the saved label for truthiness and skips the
    reset: whatever the outcome of the network call, the button stays
    disabled and keeps the loading label. *)
Theorem submit_empty_label_stays_disabled (o : Outcome) :
  let p := sample_page "Al" "a@b.co" "1234567890" "" in
  form_valid p = true ∧
  submitButton p = Some (mkButton false []) ∧
  submitButton (submit o p) =
    Some (mkButton true (js "<span>Sending...</span>")).
Proof.
  intros p. assert (Hv : form_valid p = true) by (by vm_compute).
  split_and!; [done..|]. by rewrite submit_button.
Qed.

(** ** Timers *)

Lemma schedule_elem t ts : t ∈ schedule t ts.
Proof.
  induction ts as [|t' ts IH]; simpl; [apply list_elem_of_here|].
  destruct (t'.1 <=? t.1); [by apply list_elem_of_further|].
  apply list_elem_of_here.
Qed.

Lemma run_callback_status_text c q :
  status_text (run_callback c q) = (λ _, []) <$> status_text q.
Proof. destruct c. unfold status_text. simpl. by destruct (formStatus q). Qed.

Lemma run_callbacks_status_text (l : list (N * Callback)) q :
  l ≠ [] →
  status_text (foldl (λ q t, run_callback t.2 q) q l) =
  (λ _, []) <$> status_text q.
Proof.
  revert q. induction l as [|t l IH]; intros q Hl; [done|]. simpl.
  destruct l as [|t' l].
  - apply run_callback_status_text.
  - rewrite IH by done. rewrite run_callback_status_text.
    by destruct (status_text q).
Qed.

Lemma advance_status_text_due ms t q :
  t ∈ timers q → t.1 ≤ ms →
  status_text (advance ms q) = (λ _, []) <$> status_text q.
Proof.
  intros Ht Hms. unfold advance. rewrite run_callbacks_status_text; [done|].
  intros Hnil. eapply (filter_nil_not_elem_of _ _ t); [exact Hnil|exact Hms|done].
Qed.

Lemma advance_status_text_early ms q :
  Forall (λ t, ms < t.1) (timers q) →
  status_text (advance ms q) = status_text q.
Proof.
  intros Hall. unfold advance.
  replace (filter (λ t, t.1 ≤ ms) (timers q)) with (@nil (N * Callback)); [done|].
  symmetry. induction Hall as [|t ts Ht _ IH]; [done|].
  rewrite filter_cons_False by lia. done.
Qed.

Lemma run_callback_idempotent c q :
  run_callback c (run_callback c q) = run_callback c q.
Proof. destruct c, q as [? ? ? [[]|] ? ? ?]; done. Qed.

Lemma same_data_values p q :
  same_data p q →
  value <$> controls p = value <$> controls q ∧
  defaultValue <$> controls p = defaultValue <$> controls q.
Proof.
  intros H. unfold same_data in H.
  assert (∀ l : list Input, value <$> l = (λ k, k.1.1.2) <$> (core <$> l)) as Ev.
  { intros l. by rewrite <- list_fmap_compose. }
  assert (∀ l : list Input, defaultValue <$> l = (λ k, k.1.2) <$> (core <$> l))
    as Ed.
  { intros l. by rewrite <- list_fmap_compose. }
  by rewrite !Ev, !Ed, H.
Qed.

Lemma success_text_not_empty : success_text ≠ [].
Proof. done. Qed.

(** C6, as the code has it: when the response reports success, the form is
    reset (every field goes back to its default value, which clears the
    fields of a form without preset values), the status line shows the
    success message, which is not empty, the message is gone once 5000 ms
    have passed, and clearing the status a second time changes nothing. *)
Theorem submit_success_resets (o : Outcome) (p : Page) :
  form_valid p = true → succeeds o →
  (∀ c, c ∈ controls (submit o p) → value c = defaultValue c) ∧
  (Forall (λ c, defaultValue c = []) (controls p) →
   Forall (λ c, value c = []) (controls (submit o p))) ∧
  length (controls (submit o p)) = length (controls p) ∧
  status_text (submit o p) = (λ _, success_text) <$> status_text p ∧
  success_text ≠ [] ∧
  (∀ ms, 5000 ≤ ms →
     status_text (advance ms (submit o p)) = (λ _, []) <$> status_text p) ∧
  (timers p = [] → ∀ ms, ms < 5000 →
     status_text (advance ms (submit o p)) =
     (λ _, success_text) <$> status_text p) ∧
  (∀ q, run_callback ClearStatus (run_callback ClearStatus q) =
        run_callback ClearStatus q).
Proof.
  intros Hv Hs. rewrite (submit_success o p Hv Hs).
  set (p1 := (validateForm (clear_previous_status p)).1).
  set (q := succeeded (logged (form_data p) (show_loading p1))).
  destruct (validated_surroundings p) as (_ & Hst & Htm & _ & _).
  fold p1 in Hst, Htm.
  pose proof (validated_same_data p) as Hsd. fold p1 in Hsd.
  assert (Hc : controls (finally_block (innerHTML <$> submitButton p) q)
               = (λ c, set_value (defaultValue c) c) <$> controls p1).
  { by destruct (finally_block_others (innerHTML <$> submitButton p) q)
      as (-> & _). }
  assert (Hstat : status_text (finally_block (innerHTML <$> submitButton p) q)
                  = (λ _, success_text) <$> status_text p).
  { destruct (finally_block_others (innerHTML <$> submitButton p) q)
      as (_ & _ & Hf & _).
    unfold status_text. rewrite Hf. simpl. rewrite Hst.
    by destruct (formStatus p). }
  assert (Htim : timers (finally_block (innerHTML <$> submitButton p) q)
                 = schedule (5000, ClearStatus) (timers p)).
  { destruct (finally_block_others (innerHTML <$> submitButton p) q)
      as (_ & _ & _ & -> & _). simpl. by rewrite Htm. }
  split_and!.
  - intros c. rewrite Hc. intros (c1 & -> & _)%list_elem_of_fmap. done.
  - intros Hdef. rewrite Hc. apply Forall_fmap.
    apply (Forall_fmap defaultValue (λ d, d = [])) in Hdef.
    rewrite <- (proj2 (same_data_values _ _ Hsd)) in Hdef.
    by apply Forall_fmap in Hdef.
  - rewrite Hc, length_fmap.
    rewrite <- (length_fmap core), Hsd. apply length_fmap.
  - done.
  - apply success_text_not_empty.
  - intros ms Hms.
    rewrite (advance_status_text_due ms (5000, ClearStatus)); [| |done].
    + rewrite Hstat. by destruct (status_text p).
    + rewrite Htim. apply schedule_elem.
  - intros Hnil ms Hms. rewrite advance_status_text_early; [done|].
    rewrite Htim, Hnil. simpl. by constructor.
  - intros q'. apply run_callback_idempotent.
Qed.

Lemma submit_success_resets_witness :
  let p := sample_page "Al" "a@b.co" "1234567890" "Send" in
  let o := Resolves (JObject [(js "success", JBool true)]) in
  value <$> controls (submit o p) = [ []; []; [] ] ∧
  status_text (submit o p) = Some success_text ∧
  status_text (advance 5000 (submit o p)) = Some [].
Proof.
  intros p o.
  assert (Hv : form_valid p = true) by (by vm_compute).
  assert (Hs : succeeds o).
  { exists (JObject [(js "success", JBool true)]). by vm_compute. }
  destruct (submit_success_resets o p Hv Hs)
    as (_ & _ & _ & Hst & _ & Hclr & _).
  split_and!.
  - by vm_compute.
  - exact Hst.
  - apply (Hclr 5000). by vm_compute.
Defined.

(** C6, as stated, fails for a form whose markup presets values: after a
    success the fields hold their default values, not the empty string. *)
Lemma submit_success_keeps_presets_counterexample :
  ¬ (∀ (o : Outcome) (p : Page),
       form_valid p = true → succeeds o →
       Forall (λ c, value c = []) (controls (submit o p))).
Proof.
  intros H.
  assert (Hs : succeeds (Resolves (JObject [(js "success", JBool true)]))).
  { exists (JObject [(js "success", JBool true)]). by vm_compute. }
  assert (Hv : form_valid preset_page = true) by (by vm_compute).
  specialize (H _ preset_page Hv Hs).
  assert (Hc : value <$> controls
                 (submit (Resolves (JObject [(js "success", JBool true)]))
                    preset_page)
               = [js "Your name"; []; js "Type here"]) by (by vm_compute).
  apply (Forall_fmap value (λ v, v = [])) in H. rewrite Hc in H.
  apply Forall_cons in H as [H _]. discriminate H.
Qed.

(** C7: when the submission fails (the response does not report success,
    the transport fails, or the body does not parse), the fields keep their
    values, the status line shows the fixed failure message "✗ Something
    went wrong. Please try again.", which is not empty and is the same
    whatever the error, and the error itself goes to the console. *)
Theorem submit_failure_keeps_form (o : Outcome) (err : Thrown) (p : Page) :
  form_valid p = true → fails_with o err →
  value <$> controls (submit o p) = value <$> controls p ∧
  formStatus (submit o p) =
    (λ _, mkStatus failure_text (js "form-status") (js "#ff6b6b")) <$>
      formStatus p ∧
  console (submit o p) = console p ++ [(js "Form submission error:", err)] ∧
  timers (submit o p) = timers p ∧
  failure_text = 10007 :: js " Something went wrong. Please try again." ∧
  failure_text ≠ [].
Proof.
  intros Hv Hf. rewrite (submit_failure o err p Hv Hf).
  set (p1 := (validateForm (clear_previous_status p)).1).
  set (q := catch_block err (logged (form_data p) (show_loading p1))).
  destruct (validated_surroundings p) as (_ & Hst & Htm & _ & Hco).
  fold p1 in Hst, Htm, Hco.
  pose proof (validated_same_data p) as Hsd. fold p1 in Hsd.
  destruct (finally_block_others (innerHTML <$> submitButton p) q)
    as (-> & _ & -> & -> & _ & ->).
  simpl. rewrite Hst, Htm, Hco. split_and!; try done.
  - by apply same_data_values.
  - by destruct (formStatus p).
Qed.

Lemma submit_failure_keeps_form_witness :
  let p := sample_page "Al" "a@b.co" "1234567890" "Send" in
  let o := Resolves (JObject [(js "success", JBool false)]) in
  value <$> controls (submit o p) = [ js "Al"; js "a@b.co"; js "1234567890" ] ∧
  status_text (submit o p) =
    Some (10007 :: js " Something went wrong. Please try again.") ∧
  console (submit o p) =
    [(js "Form submission error:", Error_of (JString (js "Submission failed")))].
Proof.
  intros p o.
  assert (Hv : form_valid p = true) by (by vm_compute).
  assert (Hf : fails_with o (Error_of (JString (js "Submission failed")))).
  { by apply (fails_response (JObject [(js "success", JBool false)])). }
  destruct (submit_failure_keeps_form o _ p Hv Hf)
    as (Hval & Hst & Hco & _ & Htext & _).
  split_and!.
  - exact Hval.
  - unfold status_text. by rewrite Hst, Htext.
  - exact Hco.
Defined.

End validation.

(** ** Active section highlighting *)

Section highlighting.

Import Nav.

Implicit Types (links : list NavLink) (sections : list Section)
  (s : Section) (l : NavLink) (i j : nat) (pos : Z).

Lemma contains_add c (cl : list jsstring) :
  classList_contains c (classList_add c cl) = true.
Proof.
  unfold classList_contains, classList_add. apply bool_decide_eq_true.
  case_decide; [done|]. apply elem_of_app. right. apply list_elem_of_here.
Qed.

Lemma contains_remove c (cl : list jsstring) :
  classList_contains c (classList_remove c cl) = false.
Proof.
  unfold classList_contains, classList_remove. apply bool_decide_eq_false.
  rewrite list_elem_of_filter. by intros [Hc _].
Qed.

Lemma active_count_removed links :
  active_count (set_classList (classList_remove (js "active")) <$> links) = 0%nat.
Proof.
  unfold active_count. induction links as [|l links IH]; [done|].
  rewrite fmap_cons, filter_cons_False; [done|].
  unfold is_active. simpl. by rewrite contains_remove.
Qed.

Lemma active_count_only_active i links :
  (i < length links)%nat → active_count (only_active i links) = 1%nat.
Proof.
  unfold only_active. revert i.
  induction links as [|l links IH]; intros i Hi; simpl in Hi; [lia|].
  destruct i as [|i]; simpl.
  - unfold active_count. rewrite filter_cons_True.
    + simpl. f_equal. apply active_count_removed.
    + unfold is_active. simpl. apply contains_add.
  - unfold active_count. rewrite filter_cons_False.
    + apply IH. lia.
    + unfold is_active. simpl. by rewrite contains_remove.
Qed.

Lemma only_active_lookup i j l links :
  (i < length links)%nat → only_active i links !! j = Some l →
  is_active l = true ↔ j = i.
Proof.
  unfold only_active. intros Hi Hj. destruct (decide (j = i)) as [->|Hne].
  - rewrite list_lookup_alter_eq, list_lookup_fmap in Hj.
    destruct (links !! i); simplify_eq/=. split; [done|intros _].
    unfold is_active. simpl. apply contains_add.
  - rewrite list_lookup_alter_ne, list_lookup_fmap in Hj by done.
    destruct (links !! j); simplify_eq/=. split; [|done].
    unfold is_active. simpl. by rewrite contains_remove.
Qed.

Lemma querySelector_link_lt id links i :
  querySelector_link id links = Some i → (i < length links)%nat.
Proof.
  unfold querySelector_link. intros Hq.
  destruct (list_find _ links) as [[i' l]|] eqn:Hf; simplify_eq/=.
  apply list_find_Some in Hf as (Hl & _). by apply lookup_lt_Some in Hl.
Qed.

(** One iteration either leaves the links alone or makes the link of the
    section the only active one. *)
Lemma highlight_section_cases pos links s :
  (highlight_section pos links s = links ∧
   (¬ in_range pos s ∨ querySelector_link (section_id s) links = None)) ∨
  (∃ i, querySelector_link (section_id s) links = Some i ∧ in_range pos s ∧
        highlight_section pos links s = only_active i links).
Proof.
  unfold highlight_section, in_range.
  destruct (querySelector_link _ _) as [i|]; [|left; auto].
  destruct (Z.leb_spec (offsetTop s) pos), (Z.ltb_spec pos (offsetTop s + offsetHeight s));
    simpl; try (left; split; [done|left; lia]).
  right. exists i. split_and!; (done || lia).
Qed.

Lemma highlight_no_match pos sections links :
  (∀ s, s ∈ sections → in_range pos s →
        querySelector_link (section_id s) links = None) →
  foldl (highlight_section pos) links sections = links.
Proof.
  induction sections as [|s sections IH]; intros Hno; simpl; [done|].
  destruct (highlight_section_cases pos links s) as [[-> _]|(i & Hq & Hin & _)].
  - apply IH. intros t Ht. apply Hno. by right.
  - rewrite Hno in Hq; [done|by left|done].
Qed.

Lemma highlight_changed_or_one pos sections links :
  foldl (highlight_section pos) links sections = links ∨
  active_count (foldl (highlight_section pos) links sections) = 1%nat.
Proof.
  induction sections as [|s sections IH] using rev_ind; [by left|].
  rewrite foldl_snoc.
  destruct (highlight_section_cases pos
              (foldl (highlight_section pos) links sections) s)
    as [[-> _]|(i & Hq & _ & ->)]; [done|].
  right. apply active_count_only_active. by eapply querySelector_link_lt.
Qed.

Lemma highlight_match pos sections links k s i :
  non_overlapping sections →
  sections !! k = Some s → in_range pos s →
  querySelector_link (section_id s) links = Some i →
  foldl (highlight_section pos) links sections = only_active i links.
Proof.
  intros Hno Hk Hin Hq.
  rewrite <- (take_drop_middle _ _ _ Hk), foldl_app. simpl.
  rewrite (highlight_no_match pos (take k sections) links).
  - destruct (highlight_section_cases pos links s)
      as [[_ [Hn|Hn]]|(i' & Hq' & _ & ->)]; [done|congruence|].
    assert (i' = i) as -> by congruence.
    apply highlight_no_match.
    intros t (j & Hj)%list_elem_of_lookup Ht. rewrite lookup_drop in Hj.
    pose proof (Hno _ _ _ _ _ Hk Hj Hin Ht). lia.
  - intros t (j & Hj)%list_elem_of_lookup Ht.
    apply lookup_take_Some in Hj as [Hj Hlt].
    pose proof (Hno _ _ _ _ _ Hk Hj Hin Ht). lia.
Qed.

(** C8, as the code has it: a run of the computation either leaves every
    link as it was or leaves exactly one link active, so it keeps "at most
    one link is active"; when scrollY + 150 lies in the range of a section
    that has a link, that link is the only active one afterwards; when it
    lies in no such range, nothing changes. *)
Theorem highlight_mutual_exclusion (scrollY : Z) sections links :
  non_overlapping sections →
  let result := highlightActiveSection scrollY sections links in
  ((active_count links ≤ 1)%nat → (active_count result ≤ 1)%nat) ∧
  (result = links ∨ active_count result = 1%nat) ∧
  (∀ k s i, sections !! k = Some s → in_range (scrollY + 150) s →
     querySelector_link (section_id s) links = Some i →
     result = only_active i links ∧
     ∀ j l, result !! j = Some l → is_active l = true ↔ j = i) ∧
  ((∀ s, s ∈ sections → in_range (scrollY + 150) s →
      querySelector_link (section_id s) links = None) →
   result = links).
Proof.
  intros Hno result. unfold result, highlightActiveSection. cbv zeta.
  split_and!.
  - intros Hle.
    destruct (highlight_changed_or_one (scrollY + 150) sections links)
      as [->| ->]; [done|lia].
  - apply highlight_changed_or_one.
  - intros k s i Hk Hin Hq.
    rewrite (highlight_match _ _ _ _ _ _ Hno Hk Hin Hq). split; [done|].
    intros j l. apply only_active_lookup. by eapply querySelector_link_lt.
  - apply highlight_no_match.
Qed.

Lemma sample_sections_non_overlapping : non_overlapping sample_sections.
Proof.
  intros i j s t x Hi Hj Hs Ht. unfold in_range in *.
  destruct i as [|[|i]], j as [|[|j]]; simplify_eq/=; (done || lia).
Qed.

Lemma highlight_mutual_exclusion_witness :
  let links := sample_links [js "nav-link"; js "active"] [js "nav-link"] in
  is_active <$> highlightActiveSection 500 sample_sections links = [false; true].
Proof.
  intros links.
  destruct (highlight_mutual_exclusion 500 sample_sections links
              sample_sections_non_overlapping) as (_ & _ & H & _).
  destruct (H 1%nat (mkSection (js "projects") 600 900) 1%nat) as [-> _].
  - reflexivity.
  - unfold in_range. simpl. lia.
  - by vm_compute.
  - by vm_compute.
Defined.

(** C8, as stated, fails where no section with a link matches: two links
    that are both active stay so. *)
Lemma highlight_two_active_counterexample :
  ¬ (∀ (scrollY : Z) sections links,
       non_overlapping sections →
       (active_count (highlightActiveSection scrollY sections links) ≤ 1)%nat).
Proof.
  intros H.
  specialize (H 2000%Z sample_sections
                (sample_links [js "nav-link"; js "active"]
                              [js "nav-link"; js "active"])
                sample_sections_non_overlapping).
  vm_compute in H. lia.
Qed.

End highlighting.

(** ** Keyboard navigation in the mobile menu *)

Section keyboard.

Import Nav Menu.

Implicit Types (p : MenuPage) (e : KeyEvent) (ev : Event).

Lemma handleTab_listeners f t e p :
  menu_keydown (handleTab f t e p).1 = menu_keydown p.
Proof.
  unfold handleTab.
  destruct (negb _); [done|].
  destruct (shiftKey e), (same_element _ _); try done.
  - by destruct t.
  - by destruct f.
Qed.

Lemma keydown_listeners e p :
  menu_keydown (keydown e p).1 = menu_keydown p.
Proof.
  unfold keydown.
  assert (∀ (ls : list Listener) (st : MenuPage * bool),
            menu_keydown (foldl (λ st l, run_listener l e st) st ls).1
            = menu_keydown st.1) as Hfold.
  { induction ls as [|[f t] ls IH]; intros st; simpl; [done|].
    rewrite IH. pose proof (handleTab_listeners f t e st.1) as Hh.
    by destruct (handleTab f t e st.1). }
  assert (∀ q, menu_keydown (document_keydown e q) = menu_keydown q) as Hdoc.
  { intros q. unfold document_keydown. by destruct (_ && _). }
  cbn [fst]. rewrite Hdoc.
  destruct (activeElement p) as [[]|]; by rewrite ?Hfold.
Qed.

(** No event handler of the script attaches a keydown listener to the
    menu. *)
Lemma handle_listeners ev p : menu_keydown (handle ev p) = menu_keydown p.
Proof.
  destruct ev; simpl; try done.
  - unfold close_menu. by case_match.
  - unfold close_menu. by case_match.
  - apply keydown_listeners.
Qed.

Lemma reachable_listeners p0 p : loaded p0 → reachable p0 p → menu_keydown p = [].
Proof.
  intros H0. induction 1 as [|p ev _ IH]; [done|].
  by rewrite handle_listeners.
Qed.

(** In every state the page can reach, a Tab keydown runs no listener of
    the script: the focus stays where it is and the default action is not
    prevented. *)
Lemma tab_not_intercepted p0 p shift :
  loaded p0 → reachable p0 p → keydown (tab shift) p = (p, false).
Proof.
  intros H0 Hr. unfold keydown.
  rewrite (reachable_listeners _ _ H0 Hr). simpl.
  by destruct (activeElement p) as [[]|].
Qed.

Lemma handleTab_wraps p first final :
  (activeElement p = Some final →
   handleTab (Some first) (Some final) (tab false) p = (focus first p, true)) ∧
  (activeElement p = Some first →
   handleTab (Some first) (Some final) (tab true) p = (focus final p, true)).
Proof.
  split; intros Ha; unfold handleTab, same_element, tab; simpl; rewrite Ha;
    by rewrite !bool_decide_eq_true_2.
Qed.

(** [handleTab], once attached by [trapFocus], wraps the focus around: Tab
    on the last focusable element of the menu moves the focus to the first,
    Shift+Tab on the first moves it to the last, and the default action is
    prevented. *)
Lemma trapFocus_wraps p first final n :
  loaded p →
  head (focusableElements p) = Some first →
  last (focusableElements p) = Some final →
  (activeElement p = Some final → final = MenuItem n →
   keydown (tab false) (trapFocus p) = (focus first (trapFocus p), true)) ∧
  (activeElement p = Some first → first = MenuItem n →
   keydown (tab true) (trapFocus p) = (focus final (trapFocus p), true)).
Proof.
  intros H0 Hf Hl. unfold loaded in H0.
  split; intros Ha ->; unfold keydown; cbn [activeElement trapFocus];
    rewrite Ha; cbn [menu_keydown trapFocus]; rewrite H0, Hf, Hl;
    cbn [foldl app run_listener fst snd].
  - rewrite (proj1 (handleTab_wraps _ first (MenuItem n))) by done. done.
  - rewrite (proj2 (handleTab_wraps _ (MenuItem n) final)) by done. done.
Qed.

(** C9 (evaluation of the code where the claim fails): the menu is opened
    by a click on the toggle and the focus is on its last link. Tab runs no
    listener: the focus is not moved to the first link and the default
    action goes ahead; likewise for Shift+Tab on the first link. With
    [trapFocus] attached the focus would wrap around. *)
Theorem menu_tab_not_trapped :
  let opened := handle ToggleClick sample_menu in
  let on_last := handle (FocusChange (Some (MenuItem 2))) opened in
  let on_first := handle (FocusChange (Some (MenuItem 0))) opened in
  menu_open on_last = true ∧
  menu_keydown on_last = [] ∧
  keydown (tab false) on_last = (on_last, false) ∧
  keydown (tab true) on_first = (on_first, false) ∧
  activeElement (keydown (tab false) (trapFocus on_last)).1 = Some (MenuItem 0) ∧
  activeElement (keydown (tab true) (trapFocus on_first)).1 = Some (MenuItem 2).
Proof. by vm_compute. Qed.

End keyboard.

(** * Further properties of the form code *)

Section form_events.

Implicit Types (p q : Page) (f g : Field) (i j e : nat).

Lemma page_eq p q :
  controls p = controls q → errorElements p = errorElements q →
  surroundings p = surroundings q → p = q.
Proof.
  destruct p, q. unfold surroundings. simpl. intros -> -> [= -> -> -> -> ->].
  done.
Qed.

Lemma error_ref_of p i (m : jsstring) :
  (controls (showError i m p) !! i ≫= error_message) =
  (controls p !! i ≫= error_message).
Proof.
  pose proof (same_data_lookup _ _ i (showError_same_data i m p)) as H.
  by destruct (controls (showError i m p) !! i), (controls p !! i);
    simplify_eq/=.
Qed.

Lemma error_ref_of_clear p i :
  (controls (clearError i p) !! i ≫= error_message) =
  (controls p !! i ≫= error_message).
Proof.
  pose proof (same_data_lookup _ _ i (clearError_same_data i p)) as H.
  by destruct (controls (clearError i p) !! i), (controls p !! i);
    simplify_eq/=.
Qed.

Lemma showError_controls i m p :
  controls (showError i m p) =
  alter (set_annotation (Some (js "true")) (js "#ff6b6b")) i (controls p).
Proof. unfold showError. by destruct (controls p !! i ≫= error_message). Qed.

Lemma clearError_controls i p :
  controls (clearError i p) = alter (set_annotation None []) i (controls p).
Proof. unfold clearError. by destruct (controls p !! i ≫= error_message). Qed.

Lemma alter_overwrite {A} (h k : A → A) (l : list A) n :
  (∀ x, h (k x) = h x) → alter h n (alter k n l) = alter h n l.
Proof.
  intros E. rewrite list_alter_alter_eq. apply list_alter_ext; [|done].
  intros x _. apply E.
Qed.

Lemma error_display_overwrite i m m' p :
  showError i m' (showError i m p) = showError i m' p ∧
  showError i m' (clearError i p) = showError i m' p ∧
  clearError i (showError i m p) = clearError i p ∧
  clearError i (clearError i p) = clearError i p.
Proof.
  split_and!; apply page_eq;
    repeat first
      [ rewrite showError_errorElements | rewrite clearError_errorElements
      | rewrite error_ref_of | rewrite error_ref_of_clear ];
    repeat first
      [ rewrite showError_controls | rewrite clearError_controls
      | rewrite showError_surroundings | rewrite clearError_surroundings ];
    try done; try (by apply alter_overwrite);
    destruct (controls p !! i ≫= error_message); try done;
    by apply alter_overwrite.
Qed.

(** The last of [showError] and [clearError] on a control decides what it
    shows: an earlier call leaves no trace. *)
Theorem error_display_last_wins i m m' p :
  showError i m' (showError i m p) = showError i m' p ∧
  showError i m' (clearError i p) = showError i m' p ∧
  clearError i (showError i m p) = clearError i p ∧
  clearError i (clearError i p) = clearError i p.
Proof. apply error_display_overwrite. Qed.

(** Each block of [validateForm] as a write to one control and to one error
    element. *)
Lemma validate_field_controls st f j :
  controls (validate_field st f).1 !! j =
  (if decide (querySelector (field_id f) st.1 = Some j)
   then (λ c, let a := expected_annotation (field_rule f (value_of j st.1)) in
              set_annotation a.1 a.2 c)
   else id) <$> controls st.1 !! j.
Proof.
  unfold validate_field. destruct (querySelector _ _) as [i|] eqn:Hq.
  - destruct (field_rule f (value_of i st.1)) eqn:Hr; cbn [fst];
      rewrite ?showError_controls, ?clearError_controls;
      case_decide as Hij; simplify_eq.
    + rewrite list_lookup_alter_eq, Hr. done.
    + rewrite list_lookup_alter_ne by congruence. by rewrite option_fmap_id.
    + rewrite list_lookup_alter_eq, Hr. done.
    + rewrite list_lookup_alter_ne by congruence. by rewrite option_fmap_id.
  - rewrite decide_False by done. by rewrite option_fmap_id.
Qed.

Lemma validate_field_errors st f e :
  errorElements (validate_field st f).1 !! e =
  (match querySelector (field_id f) st.1 with
   | Some i =>
       if decide (controls st.1 !! i ≫= error_message = Some e)
       then λ _, expected_error f (field_rule f (value_of i st.1))
       else id
   | None => id
   end) <$> errorElements st.1 !! e.
Proof.
  destruct (querySelector (field_id f) st.1) as [i|] eqn:Hq.
  - case_decide as He.
    + apply validate_field_error; [done|]. unfold error_ref. by rewrite Hq.
    + rewrite validate_field_error_other, option_fmap_id; [done|].
      unfold error_ref. by rewrite Hq.
  - unfold validate_field. rewrite Hq. by rewrite option_fmap_id.
Qed.

Lemma last_annotation_write_snoc fs f p j :
  last_annotation_write (fs ++ [f]) p j =
  if decide (querySelector (field_id f) p = Some j)
  then Some (expected_annotation (field_rule f (value_of j p)))
  else last_annotation_write fs p j.
Proof. unfold last_annotation_write. by rewrite foldl_snoc. Qed.

Lemma last_error_write_snoc fs f p e :
  last_error_write (fs ++ [f]) p e =
  match querySelector (field_id f) p with
  | Some i =>
      if decide (controls p !! i ≫= error_message = Some e)
      then Some (expected_error f (field_rule f (value_of i p)))
      else last_error_write fs p e
  | None => last_error_write fs p e
  end.
Proof. unfold last_error_write. by rewrite foldl_snoc. Qed.

Lemma error_message_same_data p q i :
  same_data p q →
  controls p !! i ≫= error_message = controls q !! i ≫= error_message.
Proof.
  intros H%(same_data_lookup _ _ i).
  by destruct (controls p !! i), (controls q !! i); simplify_eq/=.
Qed.

Lemma last_annotation_write_same_data fs p q j :
  same_data p q → last_annotation_write fs p j = last_annotation_write fs q j.
Proof.
  intros H. induction fs as [|f fs IH] using rev_ind; [done|].
  rewrite !last_annotation_write_snoc, IH.
  by rewrite (querySelector_same_data _ _ _ H), (value_of_same_data _ _ _ H).
Qed.

Lemma last_error_write_same_data fs p q e :
  same_data p q → last_error_write fs p e = last_error_write fs q e.
Proof.
  intros H. induction fs as [|f fs IH] using rev_ind; [done|].
  rewrite !last_error_write_snoc, IH.
  rewrite (querySelector_same_data _ _ _ H).
  destruct (querySelector _ q) as [i|]; [|done].
  by rewrite (error_message_same_data _ _ _ H), (value_of_same_data _ _ _ H).
Qed.

Lemma fold_controls fs st j :
  controls (foldl validate_field st fs).1 !! j =
  (λ c, match last_annotation_write fs st.1 j with
        | Some a => set_annotation a.1 a.2 c
        | None => c
        end) <$> controls st.1 !! j.
Proof.
  induction fs as [|f fs IH] using rev_ind.
  - simpl. by destruct (controls st.1 !! j).
  - rewrite foldl_snoc, validate_field_controls, IH, last_annotation_write_snoc.
    pose proof (fold_same_data fs st) as Hsd.
    rewrite (querySelector_same_data _ _ _ Hsd), (value_of_same_data _ _ _ Hsd).
    case_decide; destruct (controls st.1 !! j); simpl; try done.
    by destruct (last_annotation_write fs st.1 j).
Qed.

Lemma fold_errors fs st e :
  errorElements (foldl validate_field st fs).1 !! e =
  (λ old, default old (last_error_write fs st.1 e)) <$> errorElements st.1 !! e.
Proof.
  induction fs as [|f fs IH] using rev_ind.
  - simpl. by destruct (errorElements st.1 !! e).
  - rewrite foldl_snoc, validate_field_errors, IH, last_error_write_snoc.
    pose proof (fold_same_data fs st) as Hsd.
    rewrite (querySelector_same_data _ _ _ Hsd).
    destruct (querySelector (field_id f) st.1) as [i|];
      [|by rewrite option_fmap_id].
    rewrite (error_message_same_data _ _ _ Hsd), (value_of_same_data _ _ _ Hsd).
    case_decide; destruct (errorElements st.1 !! e); simpl; done.
Qed.

(** Validation touches nothing but the error display: the identity, name,
    value and default of every control, the submit button, the status line,
    the timers and the logs are as before, and no error element appears or
    disappears. *)
Theorem validateForm_frame p :
  core <$> controls (validateForm p).1 = core <$> controls p ∧
  length (errorElements (validateForm p).1) = length (errorElements p) ∧
  submitButton (validateForm p).1 = submitButton p ∧
  formStatus (validateForm p).1 = formStatus p ∧
  timers (validateForm p).1 = timers p ∧
  requests (validateForm p).1 = requests p ∧
  console (validateForm p).1 = console p.
Proof.
  pose proof (validateForm_surroundings p) as Hs.
  injection Hs as H1 H2 H3 H4 H5.
  split_and!; try done.
  - apply validateForm_same_data.
  - rewrite validateForm_fields.
    destruct (decide (length (errorElements (foldl validate_field (p, true) fields).1)
                      = length (errorElements p))) as [|Hne]; [done|].
    exfalso.
    assert (∀ e, is_Some (errorElements (foldl validate_field (p, true) fields).1 !! e)
                 ↔ is_Some (errorElements p !! e)) as Hdom.
    { intros e. rewrite fold_errors. simpl. apply fmap_is_Some. }
    setoid_rewrite lookup_lt_is_Some in Hdom.
    destruct (Nat.lt_trichotomy
                (length (errorElements (foldl validate_field (p, true) fields).1))
                (length (errorElements p))) as [Hlt|[?|Hlt]]; [|done|].
    + apply Hdom in Hlt. lia.
    + apply Hdom in Hlt. lia.
Qed.

(** Validating twice is validating once: a second run of [validateForm]
    returns the same verdict and leaves the page as the first run did. *)
Theorem validateForm_idempotent p :
  validateForm (validateForm p).1 = validateForm p.
Proof.
  pose proof (validateForm_same_data p) as Hsd.
  apply injective_projections.
  - apply page_eq.
    + apply list_eq. intros j. rewrite !validateForm_fields.
      rewrite (fold_controls fields ((foldl validate_field (p, true) fields).1, true)).
      cbn [fst]. rewrite <- validateForm_fields.
      rewrite (last_annotation_write_same_data _ _ p j Hsd).
      rewrite validateForm_fields, (fold_controls fields (p, true)). cbn [fst].
      destruct (controls p !! j); [simpl|done].
      by destruct (last_annotation_write fields p j).
    + apply list_eq. intros e. rewrite !validateForm_fields.
      rewrite (fold_errors fields ((foldl validate_field (p, true) fields).1, true)).
      cbn [fst]. rewrite <- validateForm_fields.
      rewrite (last_error_write_same_data _ _ p e Hsd).
      rewrite validateForm_fields, (fold_errors fields (p, true)). cbn [fst].
      destruct (errorElements p !! e); [simpl|done].
      by destruct (last_error_write fields p e).
    + apply validateForm_surroundings.
  - rewrite !validateForm_valid. apply forallb_pointwise. intros f.
    by apply field_valid_same_data.
Qed.

(** Leaving a field that holds only whitespace does nothing. Leaving a
    field with content validates the whole form: every field that fails its
    rule is flagged, also one the user has not visited yet. *)
Theorem on_blur_validates_form p j :
  (trim (value_of j p) = [] → on_blur j p = p) ∧
  (trim (value_of j p) ≠ [] →
   ∀ f i r, f ∈ fields → field_fails f p i r →
     annotation i (on_blur j p) = Some (Some (js "true"), js "#ff6b6b") ∧
     ∀ e, own_error_element f p e →
       errorElements (on_blur j p) !! e =
       (λ _, mkErrorElement (field_text f r) (js "block")) <$>
         errorElements p !! e).
Proof.
  unfold on_blur. split.
  - by intros ->.
  - intros Hne f i r Hf [Hq Hr].
    destruct (trim (value_of j p)); [done|]. simpl. split.
    + by rewrite (validateForm_annotation p f i Hf Hq), Hr.
    + intros e Hown. by rewrite (validateForm_error p f i e Hf Hq Hown), Hr.
Qed.

Lemma on_blur_validates_form_witness :
  let p := sample_page "Al" "" "" "Send" in
  annotation 1 (on_blur 0 p) = Some (Some (js "true"), js "#ff6b6b") ∧
  errorElements (on_blur 0 p) !! 1%nat =
    Some (mkErrorElement (js "Please enter your email") (js "block")).
Proof.
  intros p.
  destruct (on_blur_validates_form p 0) as [_ H].
  assert (Hne : trim (value_of 0 p) ≠ []) by (by vm_compute).
  assert (Hfail : field_fails email_field p 1 Required) by (by vm_compute).
  destruct (H Hne email_field 1%nat Required email_field_validated Hfail)
    as [Ha He].
  split; [exact Ha|]. apply (He 1%nat). split; [by vm_compute|].
  intros g Hg Hid. apply list_elem_of_In in Hg.
  destruct Hg as [<-|[<-|[<-|[]]]]; by vm_compute.
Defined.

(** Typing into a field that validation has flagged removes the flag: the
    control and its error element are as if [clearError] had been called on
    the page before the error was shown. A field that is not flagged is left
    alone, and in no case does the listener change a value. *)
Theorem on_input_clears_flag p i m :
  is_Some (controls p !! i) →
  on_input i (showError i m p) = clearError i p ∧
  annotation i (on_input i (showError i m p)) = Some (None, []) ∧
  same_data (on_input i (showError i m p)) p.
Proof.
  intros [c Hc].
  assert (on_input i (showError i m p) = clearError i p) as ->.
  { unfold on_input. rewrite bool_decide_eq_true_2.
    - apply error_display_overwrite; exact m.
    - rewrite showError_controls, list_lookup_alter_eq, Hc. done. }
  split_and!; [done| |apply clearError_same_data].
  by rewrite clearError_annotation, decide_True, Hc.
Qed.

Lemma on_input_clears_flag_witness :
  let p := sample_page "a" "a@b.co" "1234567890" "Send" in
  on_input 0 (validateForm p).1 = clearError 0 p.
Proof.
  intros p.
  assert (Hc : is_Some (controls p !! 0%nat)) by (by eexists).
  destruct (on_input_clears_flag p 0
              (js "Name must be at least 2 characters") Hc) as [H _].
  etrans; [|exact H]. by vm_compute.
Defined.

Lemma on_input_unflagged p i :
  controls p !! i ≫= aria_invalid ≠ Some (js "true") → on_input i p = p.
Proof. intros H. unfold on_input. by rewrite bool_decide_eq_false_2. Qed.

(** A submission that validation stops still clears the status line: the
    message of an earlier attempt is gone and the class is reset. *)
Theorem submit_invalid_clears_status o p f i r :
  f ∈ fields → field_fails f p i r →
  formStatus (submit o p) =
  (λ s, mkStatus [] (js "form-status") (status_color s)) <$> formStatus p.
Proof.
  intros Hf Hfail.
  rewrite (submit_invalid o p (field_fails_invalid _ _ _ _ Hf Hfail)).
  by destruct (validated_surroundings p) as (_ & -> & _).
Qed.

Lemma submit_invalid_clears_status_witness :
  let p := set_formStatus (λ _, Some (mkStatus failure_text [] (js "#ff6b6b")))
             (sample_page "" "" "" "Send") in
  formStatus (submit (FetchRejects []) p) =
  Some (mkStatus [] (js "form-status") (js "#ff6b6b")).
Proof.
  intros p.
  assert (Hfail : field_fails name_field p 0 Required) by (by vm_compute).
  exact (submit_invalid_clears_status (FetchRejects []) p name_field 0 Required
           name_field_validated Hfail).
Defined.

Lemma schedule_keeps t t' ts : t ∈ ts → t ∈ schedule t' ts.
Proof.
  induction ts as [|u ts IH]; simpl; [by intros ?%elem_of_nil|].
  intros [->|Hin]%elem_of_cons; destruct (u.1 <=? t'.1).
  - apply list_elem_of_here.
  - apply list_elem_of_further, list_elem_of_here.
  - by apply list_elem_of_further, IH.
  - by do 2 apply list_elem_of_further.
Qed.

Lemma submit_timers_kept o p t :
  form_valid p = true → t ∈ timers p → t ∈ timers (submit o p).
Proof.
  intros Hv Ht. destruct (validated_surroundings p) as (_ & _ & Htm & _).
  destruct (outcome_cases o) as [Hs|[err Hf]].
  - rewrite (submit_success _ _ Hv Hs).
    destruct (finally_block_others (innerHTML <$> submitButton p)
      (succeeded (logged (form_data p)
        (show_loading (validateForm (clear_previous_status p)).1))))
      as (_ & _ & _ & -> & _).
    simpl. rewrite Htm. by apply schedule_keeps.
  - rewrite (submit_failure _ _ _ Hv Hf).
    destruct (finally_block_others (innerHTML <$> submitButton p)
      (catch_block err (logged (form_data p)
        (show_loading (validateForm (clear_previous_status p)).1))))
      as (_ & _ & _ & -> & _).
    simpl. by rewrite Htm.
Qed.

Lemma submit_status_presence o p :
  (λ _, ()) <$> status_text (submit o p) = (λ _, ()) <$> status_text p.
Proof.
  unfold status_text.
  destruct (validated_surroundings p) as (_ & Hst & _).
  destruct (form_valid p) eqn:Hv.
  - destruct (outcome_cases o) as [Hs|[err Hf]].
    + rewrite (submit_success _ _ Hv Hs).
      destruct (finally_block_others (innerHTML <$> submitButton p)
        (succeeded (logged (form_data p)
          (show_loading (validateForm (clear_previous_status p)).1))))
        as (_ & _ & -> & _).
      simpl. rewrite Hst. by destruct (formStatus p).
    + rewrite (submit_failure _ _ _ Hv Hf).
      destruct (finally_block_others (innerHTML <$> submitButton p)
        (catch_block err (logged (form_data p)
          (show_loading (validateForm (clear_previous_status p)).1))))
        as (_ & _ & -> & _).
      simpl. rewrite Hst. by destruct (formStatus p).
  - rewrite (submit_invalid o p Hv), Hst. by destruct (formStatus p).
Qed.

(** The timer of an earlier success is not cancelled by a later submission:
    when it falls due it empties the status line, whatever the later
    submission has put there, so a message can disappear before it has been
    shown for 5000 ms. *)
Theorem stale_timer_clears_status o p t ms :
  form_valid p = true → t ∈ timers p → t.1 ≤ ms →
  status_text (advance ms (submit o p)) = (λ _, []) <$> status_text p.
Proof.
  intros Hv Ht Hms.
  rewrite (advance_status_text_due ms t);
    [|by apply submit_timers_kept|done].
  pose proof (submit_status_presence o p) as H.
  by destruct (status_text (submit o p)), (status_text p).
Qed.

Lemma stale_timer_clears_status_witness :
  let p := setTimeout ClearStatus 1000
             (sample_page "Al" "a@b.co" "1234567890" "Send") in
  status_text (submit (FetchRejects []) p) = Some failure_text ∧
  status_text (advance 1000 (submit (FetchRejects []) p)) = Some [].
Proof.
  intros p. split; [by vm_compute|].
  assert (Hv : form_valid p = true) by (by vm_compute).
  assert (Ht : (1000, ClearStatus) ∈ timers p) by apply list_elem_of_here.
  assert (Hms : (1000, ClearStatus).1 ≤ 1000) by (by vm_compute).
  exact (stale_timer_clears_status (FetchRejects []) p _ 1000 Hv Ht Hms).
Defined.

(** For a valid form whose submit button has a label, the button is
    enabled again after the handler, whatever the outcome of the network
    call. *)
Theorem submit_reenables_button o p b :
  form_valid p = true → submitButton p = Some b → innerHTML b ≠ [] →
  disabled <$> submitButton (submit o p) = Some false.
Proof.
  intros Hv Hb Hne. rewrite submit_button, Hb by done. simpl.
  by destruct (innerHTML b).
Qed.

Lemma submit_reenables_button_witness :
  let p := sample_page "Al" "a@b.co" "1234567890" "Send" in
  disabled <$> submitButton (submit (JsonRejects []) p) = Some false.
Proof.
  intros p.
  assert (Hv : form_valid p = true) by (by vm_compute).
  assert (Hne : innerHTML (mkButton false (js "Send")) ≠ []) by (by vm_compute).
  exact (submit_reenables_button (JsonRejects []) p (mkButton false (js "Send"))
           Hv eq_refl Hne).
Defined.

End form_events.

(** * Rate limiting *)

Section rate_limiting.

Import Rate.

Context {Args S : Type} (func : Args → S → S).

Implicit Types (t : Throttle) (s : S) (evs : list (Event Args)) (a b : Args).

Lemma throttle_wait_pending ms r s :
  ms < r →
  throttle_wait ms (mkThrottle true [r], s) = (mkThrottle true [r - ms], s).
Proof.
  intros Hlt. unfold throttle_wait. simpl.
  rewrite !filter_cons, !filter_nil.
  destruct (decide (r ≤ ms)); [lia|].
  destruct (decide (¬ r ≤ ms)); [done|lia].
Qed.

Lemma throttle_wait_release ms r s :
  r ≤ ms → throttle_wait ms (mkThrottle true [r], s) = (throttle_init, s).
Proof.
  intros Hle. unfold throttle_wait. simpl.
  rewrite !filter_cons, !filter_nil.
  destruct (decide (r ≤ ms)); [|lia].
  destruct (decide (¬ r ≤ ms)); [lia|done].
Qed.

Lemma throttle_run_cons limit ev evs (st : Throttle * S) :
  throttle_run func limit (ev :: evs) st =
  throttle_run func limit evs (throttle_step func limit st ev).
Proof. done. Qed.

Lemma throttle_call_busy limit a r s :
  throttle_call func limit a (mkThrottle true r, s) = (mkThrottle true r, s).
Proof. done. Qed.

Lemma setTimeout_delay_small (ms : N) :
  ms < 2147483648 → setTimeout_delay ms = ms.
Proof.
  intros Hlt. unfold setTimeout_delay. cbv zeta.
  rewrite N.mod_small by lia.
  destruct (N.ltb_spec ms 2147483648); [done|lia].
Qed.

Lemma setTimeout_delay_le (ms : N) : setTimeout_delay ms ≤ ms.
Proof.
  unfold setTimeout_delay. cbv zeta.
  destruct (N.ltb_spec (ms mod 4294967296) 2147483648); [|lia].
  apply N.Div0.mod_le.
Qed.

Lemma throttle_call_open limit a s :
  throttle_call func limit a (mkThrottle false [], s) =
  (mkThrottle true [setTimeout_delay limit], func a s).
Proof. done. Qed.

(** While the timer of an executed call is pending, calls are dropped. *)
Lemma throttle_run_pending limit evs r s :
  total_wait evs < r →
  throttle_run func limit evs (mkThrottle true [r], s) =
  (mkThrottle true [r - total_wait evs], s).
Proof.
  revert r. induction evs as [|[a|ms] evs IH]; intros r Hlt.
  - simpl. by rewrite N.sub_0_r.
  - rewrite throttle_run_cons. cbn [throttle_step].
    rewrite throttle_call_busy. by apply IH.
  - rewrite throttle_run_cons. cbn [throttle_step].
    change (total_wait (Wait ms :: evs)) with (ms + total_wait evs) in *.
    rewrite throttle_wait_pending by lia. rewrite IH by lia.
    do 3 f_equal. lia.
Qed.

Lemma throttle_wf_step limit t s ev :
  throttle_wf limit t → throttle_wf limit (throttle_step func limit (t, s) ev).1.
Proof.
  unfold throttle_wf. destruct t as [[] rel]; cbn [inThrottle release].
  - intros (r & -> & Hr). destruct ev as [a|ms]; cbn [throttle_step].
    + rewrite throttle_call_busy. by exists r.
    + destruct (decide (r ≤ ms)).
      * by rewrite throttle_wait_release.
      * rewrite throttle_wait_pending by lia. cbn [fst inThrottle release].
        exists (r - ms). split; [done|lia].
  - intros ->. destruct ev as [a|ms]; cbn [throttle_step]; [|done].
    rewrite (throttle_call_open limit a s). cbn [fst inThrottle release].
    exists (setTimeout_delay limit). split; [done|apply setTimeout_delay_le].
Qed.

(** The flag [inThrottle] is set exactly while one reset timer is pending:
    no sequence of calls and pauses leaves the flag set for good, or two
    timers pending. *)
Theorem throttle_flag_has_timer limit evs s :
  throttle_wf limit (throttle_run func limit evs (throttle_init, s)).1.
Proof.
  assert (∀ st, throttle_wf limit st.1 →
                throttle_wf limit (throttle_run func limit evs st).1) as H.
  { induction evs as [|ev evs IH]; intros st Hwf; [done|]. simpl.
    apply IH. destruct st as [t s']. by apply throttle_wf_step. }
  by apply (H (throttle_init, s)).
Qed.

(** For a limit that fits the 32-bit delay of [setTimeout]: a call that
    finds the throttle open runs the function at once; every call made before
    [limit] ms have passed since then is dropped, and it is dropped for good:
    no later pause runs it. *)
Theorem throttle_once_per_window limit t s a evs :
  limit < 2147483648 →
  throttle_wf limit t → inThrottle t = false →
  total_wait evs < limit →
  (throttle_run func limit (Call a :: evs) (t, s)).2 = func a s ∧
  ∀ ms, (throttle_run func limit (Call a :: evs ++ [Wait ms]) (t, s)).2
        = func a s.
Proof.
  intros Hlim Hwf Hopen Hlt. unfold throttle_wf in Hwf.
  destruct t as [flag rel]. cbn [inThrottle release] in *. subst flag rel.
  split.
  - rewrite throttle_run_cons. cbn [throttle_step].
    rewrite (throttle_call_open limit a s), setTimeout_delay_small by done.
    by rewrite throttle_run_pending.
  - intros ms. rewrite throttle_run_cons. cbn [throttle_step].
    rewrite (throttle_call_open limit a s), setTimeout_delay_small by done.
    unfold throttle_run. rewrite foldl_app.
    fold (throttle_run func limit evs (mkThrottle true [limit], func a s)).
    by rewrite throttle_run_pending.
Qed.

(** For a limit that fits the 32-bit delay of [setTimeout]: once [limit] ms
    have passed since the call that ran, the next call runs again, whatever
    calls were dropped in between. *)
Theorem throttle_reopens limit t s a b evs ms :
  limit < 2147483648 →
  throttle_wf limit t → inThrottle t = false →
  total_wait evs < limit → limit ≤ total_wait evs + ms →
  (throttle_run func limit (Call a :: evs ++ [Wait ms; Call b]) (t, s)).2
  = func b (func a s).
Proof.
  intros Hlim Hwf Hopen Hlt Hge. unfold throttle_wf in Hwf.
  destruct t as [flag rel]. cbn [inThrottle release] in *. subst flag rel.
  rewrite throttle_run_cons. cbn [throttle_step].
  rewrite (throttle_call_open limit a s), setTimeout_delay_small by done.
  unfold throttle_run. rewrite foldl_app.
  fold (throttle_run func limit evs (mkThrottle true [limit], func a s)).
  rewrite throttle_run_pending by done. cbn [foldl throttle_step].
  rewrite throttle_wait_release by lia. done.
Qed.

Implicit Types (d : @Debounce Args) (calls : list (N * Args)).

Lemma debounce_run_cons wait ev evs (st : @Debounce Args * S) :
  debounce_run func wait (ev :: evs) st =
  debounce_run func wait evs (debounce_step func wait st ev).
Proof. done. Qed.

Lemma debounce_wait_pending ms r a s :
  ms < r → debounce_wait func ms (Some (r, a), s) = (Some (r - ms, a), s).
Proof.
  intros Hlt. unfold debounce_wait. cbn [fst snd].
  destruct (N.leb_spec r ms); [lia|done].
Qed.

Lemma debounce_wait_due ms r a s :
  r ≤ ms → debounce_wait func ms (Some (r, a), s) = (None, func a s).
Proof.
  intros Hle. unfold debounce_wait. cbn [fst snd].
  destruct (N.leb_spec r ms); [done|lia].
Qed.

(** Calls that come less than [wait] ms apart only move the timer on. *)
Lemma debounce_burst_pending wait calls a s :
  wait < 2147483648 →
  Forall (λ c, c.1 < wait) calls →
  debounce_run func wait (burst calls) (Some (wait, a), s) =
  (Some (wait, from_option snd a (last calls)), s).
Proof.
  intros Hw Hall. revert a.
  induction Hall as [|c calls Hc _ IH]; intros a; [done|].
  change (burst (c :: calls)) with (Wait c.1 :: Call c.2 :: burst calls).
  rewrite !debounce_run_cons. cbn [debounce_step].
  rewrite debounce_wait_pending by done.
  unfold debounce_call. cbn [snd]. rewrite setTimeout_delay_small by done.
  rewrite IH.
  destruct calls as [|c' calls]; [done|]. rewrite (last_cons_cons c c').
  destruct (last (c' :: calls)) eqn:E; [done|]. by apply last_None in E.
Qed.

(** For a wait that fits the 32-bit delay of [setTimeout]: a run of calls,
    each less than [wait] ms after the one before, runs the function once,
    [wait] ms after the last call and with the arguments of that call;
    nothing runs before, and nothing runs again later. *)
Theorem debounce_runs_last_call_once wait d s a calls ms :
  wait < 2147483648 →
  Forall (λ c, c.1 < wait) calls → wait ≤ ms →
  (debounce_run func wait (Call a :: burst calls) (d, s)).2 = s ∧
  debounce_run func wait (Call a :: burst calls ++ [Wait ms]) (d, s) =
    (None, func (from_option snd a (last calls)) s) ∧
  ∀ ms', debounce_run func wait (Call a :: burst calls ++ [Wait ms; Wait ms'])
           (d, s) =
         (None, func (from_option snd a (last calls)) s).
Proof.
  intros Hw Hall Hms.
  assert (∀ evs, debounce_run func wait (Call a :: burst calls ++ evs) (d, s) =
                 debounce_run func wait evs
                   (Some (wait, from_option snd a (last calls)), s)) as Hrun.
  { intros evs. rewrite debounce_run_cons. cbn [debounce_step].
    unfold debounce_call. cbn [snd]. rewrite setTimeout_delay_small by done.
    unfold debounce_run. rewrite foldl_app.
    fold (debounce_run func wait (burst calls) (Some (wait, a), s)).
    by rewrite debounce_burst_pending. }
  split_and!.
  - specialize (Hrun []). rewrite app_nil_r in Hrun. by rewrite Hrun.
  - rewrite Hrun. unfold debounce_run. cbn [foldl debounce_step].
    by rewrite debounce_wait_due.
  - intros ms'. rewrite Hrun. unfold debounce_run. cbn [foldl debounce_step].
    by rewrite debounce_wait_due.
Qed.

End rate_limiting.

Lemma throttle_once_per_window_witness :
  (Rate.throttle_run (λ a s, s ++ [a]) 100
     [Rate.Call 1; Rate.Wait 30; Rate.Call 2; Rate.Wait 40; Rate.Call 3]
     (Rate.throttle_init, [])).2 = [1].
Proof.
  refine (proj1 (throttle_once_per_window (λ a s, s ++ [a]) 100
                   Rate.throttle_init [] 1
                   [Rate.Wait 30; Rate.Call 2; Rate.Wait 40; Rate.Call 3]
                   _ _ _ _)).
  - by vm_compute.
  - reflexivity.
  - reflexivity.
  - by vm_compute.
Defined.

Lemma throttle_reopens_witness :
  (Rate.throttle_run (λ a s, s ++ [a]) 100
     [Rate.Call 1; Rate.Wait 30; Rate.Call 2; Rate.Wait 70; Rate.Call 3]
     (Rate.throttle_init, [])).2 = [1; 3].
Proof.
  refine (throttle_reopens (λ a s, s ++ [a]) 100 Rate.throttle_init [] 1 3
            [Rate.Wait 30; Rate.Call 2] 70 _ _ _ _ _).
  - by vm_compute.
  - reflexivity.
  - reflexivity.
  - by vm_compute.
  - by vm_compute.
Defined.

Lemma debounce_runs_last_call_once_witness :
  Rate.debounce_run (λ a s, s ++ [a]) 50
    [Rate.Call 1; Rate.Wait 20; Rate.Call 2; Rate.Wait 49; Rate.Call 3;
     Rate.Wait 50] (None, []) = (None, [3]).
Proof.
  refine (proj1 (proj2 (debounce_runs_last_call_once (λ a s, s ++ [a]) 50 None
                          [] 1 [(20, 2); (49, 3)] 50 _ _ _))).
  - by vm_compute.
  - repeat constructor.
  - by vm_compute.
Defined.

(** The bound on the delay is needed: a delay of 2^31 ms is one of 0 ms, so
    the throttle is open again, and the debounced call runs, at the next
    turn of the event loop. *)
Lemma throttle_delay_overflow :
  (Rate.throttle_run (λ a s, s ++ [a]) 2147483648
     [Rate.Call 1; Rate.Wait 0; Rate.Call 2] (Rate.throttle_init, [])).2 = [1; 2].
Proof. by vm_compute. Qed.

Lemma debounce_delay_overflow :
  Rate.debounce_run (λ a s, s ++ [a]) 2147483648
    [Rate.Call 1; Rate.Wait 0; Rate.Call 2; Rate.Wait 0] (None, [])
  = (None, [1; 2]).
Proof. by vm_compute. Qed.

(** * The scroll listeners *)

Section scrolling.

Import Nav Rate Scrolling.

Implicit Types (w : Window) (st : Scroller) (sections : list Section).

Lemma contains_add_other (c c' : jsstring) (cl : list jsstring) :
  c' ≠ c → classList_contains c' (classList_add c cl) = classList_contains c' cl.
Proof.
  intros Hne. unfold classList_contains, classList_add.
  case_decide; [done|]. apply bool_decide_ext.
  rewrite elem_of_app, list_elem_of_singleton. split; [|by left].
  by intros [?|?].
Qed.

Lemma contains_remove_other (c c' : jsstring) (cl : list jsstring) :
  c' ≠ c →
  classList_contains c' (classList_remove c cl) = classList_contains c' cl.
Proof.
  intros Hne. unfold classList_contains, classList_remove.
  apply bool_decide_ext. rewrite list_elem_of_filter. split; [by intros [_ ?]|done].
Qed.

Lemma classList_add_idem (c : jsstring) (cl : list jsstring) :
  classList_add c (classList_add c cl) = classList_add c cl.
Proof.
  unfold classList_add at 1. rewrite decide_True; [done|].
  pose proof (contains_add c cl) as H. unfold classList_contains in H.
  by apply bool_decide_eq_true in H.
Qed.

Lemma classList_remove_idem (c : jsstring) (cl : list jsstring) :
  classList_remove c (classList_remove c cl) = classList_remove c cl.
Proof. unfold classList_remove. by apply list_filter_filter_l. Qed.

Lemma navScroll_scrolled (y : Z) (cl : list jsstring) :
  classList_contains (js "scrolled") <$> navScroll y (Some cl)
    = Some (bool_decide (100 < y)%Z).
Proof.
  unfold navScroll. destruct (Z.ltb_spec 100 y); simpl.
  - by rewrite bool_decide_eq_true_2, contains_add.
  - by rewrite bool_decide_eq_false_2, contains_remove by lia.
Qed.

(** After the body of [handleNavScroll] the navigation bar carries the
    class [scrolled] exactly when the offset is above 100 (at 100 it does
    not); every other class is as before, and running it again changes
    nothing. *)
Theorem navScroll_threshold (y : Z) (cl : list jsstring) :
  classList_contains (js "scrolled") <$> navScroll y (Some cl)
    = Some (bool_decide (100 < y)%Z) ∧
  (∀ c, c ≠ js "scrolled" →
     classList_contains c <$> navScroll y (Some cl)
       = Some (classList_contains c cl)) ∧
  navScroll y (navScroll y (Some cl)) = navScroll y (Some cl) ∧
  navScroll y None = None.
Proof.
  unfold navScroll. destruct (Z.ltb_spec 100 y); simpl.
  - rewrite bool_decide_eq_true_2 by done. split_and!.
    + by rewrite contains_add.
    + intros c Hc. by rewrite contains_add_other.
    + f_equal. apply classList_add_idem.
    + done.
  - rewrite bool_decide_eq_false_2 by lia. split_and!.
    + by rewrite contains_remove.
    + intros c Hc. by rewrite contains_remove_other.
    + f_equal. apply classList_remove_idem.
    + done.
Qed.

(** What one event does to the window and to the two closures. *)
Lemma scroll_step_scroll sections st y :
  let st' := scroll_step sections st (Scroll y) in
  scrollY (window st') = y ∧
  navLinks (window st') = navLinks (window st) ∧
  debouncedHighlight st' = Some (50, ()) ∧
  nav (window st') =
    (if inThrottle (handleNavScroll st) then nav (window st)
     else navScroll y (nav (window st))) ∧
  handleNavScroll st' =
    (if inThrottle (handleNavScroll st) then handleNavScroll st
     else mkThrottle true (release (handleNavScroll st) ++ [100])).
Proof.
  destruct st as [[[] rel] d [y0 n ls]]; cbv zeta; unfold scroll_step;
    unfold throttle_call, debounce_call; cbn -[js navScroll]; done.
Qed.

Lemma scroll_step_idle sections st ms :
  let st' := scroll_step sections st (Idle ms) in
  scrollY (window st') = scrollY (window st) ∧
  nav (window st') = nav (window st) ∧
  handleNavScroll st' = (throttle_wait ms (handleNavScroll st, ())).1 ∧
  match debouncedHighlight st with
  | Some (r, _) =>
      if r <=? ms
      then debouncedHighlight st' = None ∧
           navLinks (window st') =
             highlightActiveSection (scrollY (window st)) sections
               (navLinks (window st))
      else debouncedHighlight st' = Some (r - ms, ()) ∧
           navLinks (window st') = navLinks (window st)
  | None =>
      debouncedHighlight st' = None ∧
      navLinks (window st') = navLinks (window st)
  end.
Proof.
  destruct st as [t d [y0 n ls]]; cbv zeta; unfold scroll_step.
  unfold throttle_wait, debounce_wait. cbn [fst snd handleNavScroll window
    debouncedHighlight].
  destruct d as [[r []]|]; [destruct (r <=? ms)|]; cbn; done.
Qed.

(** The throttled listener can leave the navigation bar behind the scroll
    position: a scroll event that comes less than 100 ms after one that was
    handled is ignored, and nothing makes up for it later, so the bar keeps
    the state of the earlier offset until the next scroll event. *)
Theorem throttled_nav_lags sections w (y1 y2 : Z) gap ms :
  gap < 100 →
  let st := scroll_run sections [Scroll y1; Idle gap; Scroll y2; Idle ms]
              (scroller_init w) in
  scrollY (window st) = y2 ∧
  has_scrolled (window st) = (λ _, bool_decide (100 < y1)%Z) <$> nav w.
Proof.
  intros Hgap. cbv zeta. unfold scroll_run. cbn [foldl].
  set (s1 := scroll_step sections (scroller_init w) (Scroll y1)).
  set (s2 := scroll_step sections s1 (Idle gap)).
  set (s3 := scroll_step sections s2 (Scroll y2)).
  destruct (scroll_step_scroll sections (scroller_init w) y1)
    as (_ & _ & _ & Hn1 & Ht1). fold s1 in Hn1, Ht1.
  cbn [inThrottle handleNavScroll scroller_init throttle_init window nav
       release app] in Hn1, Ht1.
  destruct (scroll_step_idle sections s1 gap) as (_ & Hn2 & Ht2 & _).
  fold s2 in Hn2, Ht2.
  rewrite Ht1 in Ht2. unfold throttle_wait in Ht2.
  cbn [fst release inThrottle] in Ht2.
  rewrite !filter_cons, !filter_nil in Ht2.
  destruct (decide (100 ≤ gap)) in Ht2; [lia|].
  destruct (decide (¬ 100 ≤ gap)) in Ht2; [|lia].
  destruct (scroll_step_scroll sections s2 y2) as (Hy3 & _ & _ & Hn3 & _).
  fold s3 in Hy3, Hn3. rewrite Ht2 in Hn3. cbn [inThrottle] in Hn3.
  destruct (scroll_step_idle sections s3 ms) as (Hy4 & Hn4 & _).
  split; [by rewrite Hy4|].
  unfold has_scrolled. rewrite Hn4, Hn3, Hn2, Hn1.
  destruct (nav w) as [cl|]; [|by unfold navScroll; destruct (100 <? y1)%Z].
  apply navScroll_scrolled.
Qed.

Lemma throttled_nav_lags_witness :
  let w := mkWindow 0 (Some [js "site-nav"]) [] in
  let st := scroll_run sample_sections
              [Scroll 150; Idle 40; Scroll 0; Idle 1000] (scroller_init w) in
  scrollY (window st) = 0%Z ∧ has_scrolled (window st) = Some true.
Proof.
  intros w.
  assert (Hgap : 40 < 100) by (by vm_compute).
  exact (throttled_nav_lags sample_sections w 150 0 40 1000 Hgap).
Defined.

Lemma scroll_burst_pending sections moves st :
  Forall (λ m, m.1 < 50) moves →
  debouncedHighlight st = Some (50, ()) →
  let st' := scroll_run sections (scroll_burst moves) st in
  debouncedHighlight st' = Some (50, ()) ∧
  navLinks (window st') = navLinks (window st) ∧
  scrollY (window st') = from_option snd (scrollY (window st)) (last moves).
Proof.
  intros Hall. revert st.
  induction Hall as [|m moves Hm _ IH]; intros st Hd; [done|].
  change (scroll_burst (m :: moves))
    with (Idle m.1 :: Scroll m.2 :: scroll_burst moves).
  cbv zeta. unfold scroll_run. cbn [foldl].
  set (s1 := scroll_step sections st (Idle m.1)).
  set (s2 := scroll_step sections s1 (Scroll m.2)).
  destruct (scroll_step_idle sections st m.1) as (_ & _ & _ & H1).
  fold s1 in H1. rewrite Hd in H1.
  destruct (N.leb_spec 50 m.1); [lia|]. destruct H1 as [_ Hl1].
  destruct (scroll_step_scroll sections s1 m.2) as (Hy2 & Hl2 & Hd2 & _).
  fold s2 in Hy2, Hl2, Hd2.
  destruct (IH s2 Hd2) as (Hd' & Hl' & Hy'). unfold scroll_run in *.
  split_and!; [done|by rewrite Hl', Hl2, Hl1|].
  rewrite Hy', Hy2. destruct moves as [|m' moves]; [done|].
  rewrite (last_cons_cons m m').
  destruct (last (m' :: moves)) eqn:E; [done|]. by apply last_None in E.
Qed.

(** The debounced highlighting waits for the scrolling to stop: while scroll
    events come less than 50 ms apart no link changes, and 50 ms after the
    last one the links are those the computation gives for the final
    offset. *)
Theorem debounced_highlight_settles sections st y moves ms :
  Forall (λ m, m.1 < 50) moves → 50 ≤ ms →
  navLinks (window (scroll_run sections (Scroll y :: scroll_burst moves) st))
    = navLinks (window st) ∧
  navLinks (window (scroll_run sections
                      (Scroll y :: scroll_burst moves ++ [Idle ms]) st))
    = highlightActiveSection (from_option snd y (last moves)) sections
        (navLinks (window st)).
Proof.
  intros Hall Hms.
  set (s1 := scroll_step sections st (Scroll y)).
  destruct (scroll_step_scroll sections st y) as (Hy1 & Hl1 & Hd1 & _).
  fold s1 in Hy1, Hl1, Hd1.
  destruct (scroll_burst_pending sections moves s1 Hall Hd1) as (Hd & Hl & Hy).
  split.
  - unfold scroll_run in *. cbn [foldl]. fold s1. by rewrite Hl.
  - unfold scroll_run in *. cbn [foldl]. fold s1. rewrite foldl_app.
    cbn [foldl].
    destruct (scroll_step_idle sections
                (foldl (scroll_step sections) s1 (scroll_burst moves)) ms)
      as (_ & _ & _ & H).
    rewrite Hd in H. destruct (N.leb_spec 50 ms); [|lia].
    destruct H as [_ ->]. by rewrite Hl, Hy, Hl1, Hy1.
Qed.

Lemma debounced_highlight_settles_witness :
  let links := sample_links [js "nav-link"; js "active"] [js "nav-link"] in
  let st := scroller_init (mkWindow 0 None links) in
  is_active <$>
    navLinks (window (scroll_run sample_sections
                        [Scroll 200; Idle 20; Scroll 400; Idle 30; Scroll 700;
                         Idle 50] st))
  = [false; true].
Proof.
  intros links st.
  assert (Hall : Forall (λ m : N * Z, m.1 < 50) [(20, 400%Z); (30, 700%Z)]).
  { repeat constructor. }
  assert (Hms : 50 ≤ 50) by (by vm_compute).
  pose proof (proj2 (debounced_highlight_settles sample_sections st 200
                       [(20, 400%Z); (30, 700%Z)] 50 Hall Hms)) as H.
  etrans; [exact (f_equal (fmap is_active) H)|]. by vm_compute.
Defined.

(** ** More on the active-section computation *)

Implicit Types (links : list NavLink) (i j : nat) (pos : Z).

Lemma querySelector_link_hrefs id links links' :
  href <$> links = href <$> links' →
  querySelector_link id links = querySelector_link id links'.
Proof.
  intros H. unfold querySelector_link.
  assert (∀ l : list NavLink,
            fst <$> list_find (λ l, href l = js "#" ++ id) l =
            fst <$> list_find (λ h, h = js "#" ++ id) (href <$> l)) as E.
  { intros l. rewrite list_find_fmap, <- option_fmap_compose.
    by destruct (list_find _ l) as [[]|]. }
  by rewrite !E, H.
Qed.

Lemma only_active_hrefs i links : href <$> only_active i links = href <$> links.
Proof.
  unfold only_active.
  rewrite (list_fmap_alter href _ id), list_alter_id by (by apply Forall_true || done).
  rewrite <- list_fmap_compose. done.
Qed.

Lemma remove_add_remove (c : jsstring) (cl : list jsstring) :
  classList_remove c (classList_add c (classList_remove c cl)) =
  classList_remove c cl.
Proof.
  unfold classList_add. case_decide as Hin.
  - apply classList_remove_idem.
  - unfold classList_remove at 1. rewrite filter_app.
    fold (classList_remove c (classList_remove c cl)).
    rewrite classList_remove_idem, filter_cons_False, filter_nil, app_nil_r;
      [done|]. by intros ?.
Qed.

Lemma only_active_twice i j links :
  only_active i (only_active j links) = only_active i links.
Proof.
  unfold only_active. f_equal.
  rewrite (list_fmap_alter _ _ id).
  - rewrite list_alter_id by done. rewrite <- list_fmap_compose.
    apply list_fmap_ext. intros _ [h cl] _. unfold set_classList. simpl.
    by rewrite classList_remove_idem.
  - apply Forall_fmap, Forall_true. intros [h cl].
    unfold set_classList. simpl. by rewrite remove_add_remove, classList_remove_idem.
Qed.

Lemma last_match_snoc pos sections s links :
  last_match pos (sections ++ [s]) links =
  match querySelector_link (section_id s) links with
  | Some i =>
      if ((offsetTop s <=? pos) && (pos <? offsetTop s + offsetHeight s))%Z
      then Some i else last_match pos sections links
  | None => last_match pos sections links
  end.
Proof. unfold last_match. by rewrite foldl_snoc. Qed.

Lemma last_match_hrefs pos sections links links' :
  href <$> links = href <$> links' →
  last_match pos sections links = last_match pos sections links'.
Proof.
  intros H. induction sections as [|s sections IH] using rev_ind; [done|].
  by rewrite !last_match_snoc, IH, (querySelector_link_hrefs _ _ _ H).
Qed.

(** The loop as a whole: the last section that matches decides. *)
Lemma highlight_fold_last_match pos sections links :
  foldl (highlight_section pos) links sections =
  match last_match pos sections links with
  | Some i => only_active i links
  | None => links
  end.
Proof.
  induction sections as [|s sections IH] using rev_ind; [done|].
  rewrite foldl_snoc, last_match_snoc, IH.
  assert (href <$> match last_match pos sections links with
                   | Some i => only_active i links
                   | None => links
                   end = href <$> links) as Hh.
  { destruct (last_match pos sections links); [apply only_active_hrefs|done]. }
  unfold highlight_section at 1.
  rewrite (querySelector_link_hrefs _ _ _ Hh).
  destruct (querySelector_link (section_id s) links) as [i|]; [|done].
  destruct ((offsetTop s <=? pos) && (pos <? offsetTop s + offsetHeight s))%Z;
    [|done].
  fold (only_active i (match last_match pos sections links with
                       | Some i => only_active i links
                       | None => links
                       end)).
  destruct (last_match pos sections links); [apply only_active_twice|done].
Qed.

(** When the ranges of several sections hold the position (nested or
    overlapping sections), the link of the last of them in document order
    is the one left active; when none with a link does, no link changes. *)
Theorem highlight_last_match_wins (y : Z) sections links :
  highlightActiveSection y sections links =
  match last_match (y + 150) sections links with
  | Some i => only_active i links
  | None => links
  end.
Proof. apply highlight_fold_last_match. Qed.

(** Running the computation again at the same offset changes nothing; the
    script runs it at load and at initialisation. *)
Theorem highlight_idempotent (y : Z) sections links :
  highlightActiveSection y sections (highlightActiveSection y sections links) =
  highlightActiveSection y sections links.
Proof.
  unfold highlightActiveSection. cbv zeta.
  rewrite (highlight_fold_last_match _ _ (foldl _ links sections)).
  rewrite (highlight_fold_last_match _ _ links).
  destruct (last_match (y + 150) sections links) as [i|] eqn:Hm.
  - rewrite (last_match_hrefs _ _ _ links (only_active_hrefs i links)), Hm.
    apply only_active_twice.
  - by rewrite Hm.
Qed.

(** The computation never adds or removes a link, never changes a target,
    and never touches a class other than [active]. *)
Theorem highlight_keeps_rest (y : Z) sections links :
  href <$> highlightActiveSection y sections links = href <$> links ∧
  ∀ j l l' c,
    links !! j = Some l →
    highlightActiveSection y sections links !! j = Some l' →
    c ≠ js "active" →
    classList_contains c (classList l') = classList_contains c (classList l).
Proof.
  unfold highlightActiveSection. cbv zeta. rewrite highlight_fold_last_match.
  destruct (last_match (y + 150) sections links) as [i|]; [|split; [done|]].
  - split; [apply only_active_hrefs|].
    intros j l l' c Hl Hl' Hc. unfold only_active in Hl'.
    destruct (decide (i = j)) as [->|Hne].
    + rewrite list_lookup_alter_eq, list_lookup_fmap, Hl in Hl'.
      simplify_eq/=. by rewrite contains_add_other, contains_remove_other.
    + rewrite list_lookup_alter_ne, list_lookup_fmap, Hl in Hl' by done.
      simplify_eq/=. by rewrite contains_remove_other.
  - intros j l l' c Hl Hl' _. congruence.
Qed.

End scrolling.

(** * The mobile menu *)

Section menu_events.

Import Nav Menu.

Implicit Types (p : MenuPage) (e : KeyEvent) (ev : Event).

Lemma handleTab_other_key f t e p :
  key e ≠ js "Tab" → handleTab f t e p = (p, false).
Proof. intros H. unfold handleTab. by rewrite bool_decide_eq_false_2. Qed.

Lemma listeners_other_key e p (ls : list Listener) (b : bool) :
  key e ≠ js "Tab" →
  foldl (λ st l, run_listener l e st) (p, b) ls = (p, b).
Proof.
  intros H. induction ls as [|[f t] ls IH]; [done|]. simpl.
  rewrite handleTab_other_key by done. simpl. by rewrite orb_false_r.
Qed.

Lemma handleTab_state f t e p :
  let q := (handleTab f t e p).1 in
  aria_expanded q = aria_expanded p ∧ menu_classList q = menu_classList p ∧
  body_overflow q = body_overflow p.
Proof.
  unfold handleTab.
  destruct (negb _); [done|].
  destruct (shiftKey e), (same_element _ _); try done.
  - by destruct t.
  - by destruct f.
Qed.

Lemma listeners_state e (ls : list Listener) (st : MenuPage * bool) :
  let q := (foldl (λ st l, run_listener l e st) st ls).1 in
  aria_expanded q = aria_expanded st.1 ∧
  menu_classList q = menu_classList st.1 ∧
  body_overflow q = body_overflow st.1.
Proof.
  revert st. induction ls as [|[f t] ls IH]; intros st; [done|].
  cbn [foldl]. cbv zeta.
  destruct (IH (run_listener (HandleTab f t) e st)) as (-> & -> & ->).
  unfold run_listener.
  pose proof (handleTab_state f t e st.1) as H.
  by destruct (handleTab f t e st.1).
Qed.

Lemma menu_open_closed (cl : list jsstring) :
  classList_contains (js "open") (classList_remove (js "open") cl) = false.
Proof. apply contains_remove. Qed.

(** The attributes follow the menu: if [aria-expanded] and the scroll lock
    of the body agree with the state of the menu, they still do after every
    event the script handles. A click on the toggle flips the state; a click
    on a link or outside closes the menu. *)
Theorem menu_attributes_follow ev p :
  menu_consistent p →
  menu_consistent (handle ev p) ∧
  (ev = ToggleClick → menu_open (handle ev p) = negb (menu_open p)) ∧
  (ev = LinkClick ∨ ev = OutsideClick → menu_open (handle ev p) = false).
Proof.
  intros [Ha Ho]. unfold menu_consistent in *.
  assert (∀ q, aria_expanded q = aria_expanded p →
               menu_classList q = menu_classList p →
               body_overflow q = body_overflow p →
               aria_expanded q = Some (if menu_open q then js "true" else js "false") ∧
               body_overflow q = (if menu_open q then js "hidden" else []))
    as Hsame.
  { intros q E1 E2 E3. unfold menu_open in *. by rewrite E1, E2, E3. }
  assert (menu_open (close_menu p) = false ∧
          aria_expanded (close_menu p) = Some (js "false") ∧
          body_overflow (close_menu p) = []) as (Hc1 & Hc2 & Hc3).
  { unfold close_menu. destruct (menu_open p) eqn:Hopen.
    - unfold menu_open. cbn [aria_expanded menu_classList body_overflow].
      by rewrite contains_remove.
    - by rewrite Ha, Ho, Hopen. }
  destruct ev as [| | |e|a]; cbn [handle].
  - assert (menu_open (toggle_click p) = negb (menu_open p)) as Hflip.
    { unfold toggle_click, menu_open. cbn [menu_classList].
      destruct (classList_contains (js "open") (menu_classList p)) eqn:Hopen;
        cbn [negb]; [apply contains_remove|apply contains_add]. }
    split; [|split; [done|by intros [?|?]]].
    rewrite Hflip. unfold toggle_click. cbn [aria_expanded body_overflow].
    rewrite Ha. by destruct (menu_open p).
  - split; [|split; [done|by intros _]]. by rewrite Hc1, Hc2, Hc3.
  - split; [|split; [done|by intros _]]. by rewrite Hc1, Hc2, Hc3.
  - split; [|split; [done|by intros [?|?]]].
    unfold keydown. cbn [fst].
    assert (∀ st : MenuPage * bool,
              aria_expanded st.1 = aria_expanded p →
              menu_classList st.1 = menu_classList p →
              body_overflow st.1 = body_overflow p →
              aria_expanded (document_keydown e st.1) =
                Some (if menu_open (document_keydown e st.1)
                      then js "true" else js "false") ∧
              body_overflow (document_keydown e st.1) =
                (if menu_open (document_keydown e st.1) then js "hidden" else []))
      as Hdoc.
    { intros st E1 E2 E3. unfold document_keydown.
      destruct (bool_decide (key e = js "Escape") && menu_open st.1) eqn:Hesc.
      - unfold menu_open. cbn [aria_expanded menu_classList body_overflow].
        by rewrite contains_remove.
      - by apply Hsame. }
    destruct (activeElement p) as [[]|]; try (by apply (Hdoc (p, false))).
    by apply Hdoc; apply (listeners_state e (menu_keydown p) (p, false)).
  - split; [|split; [done|by intros [?|?]]]. by apply Hsame.
Qed.

Lemma menu_attributes_follow_witness :
  menu_consistent (handle ToggleClick sample_menu) ∧
  menu_open (handle ToggleClick sample_menu) = true.
Proof.
  assert (H0 : menu_consistent sample_menu) by (by vm_compute).
  destruct (menu_attributes_follow ToggleClick sample_menu H0) as (Hc & Ht & _).
  split; [exact Hc|exact (Ht eq_refl)].
Defined.

(** Escape closes an open menu wherever the focus is and whatever listeners
    the menu has: the class [open] is removed, [aria-expanded] is "false",
    the body scrolls again and the focus is on the toggle. With the menu
    closed Escape changes nothing. The default action is never prevented. *)
Theorem escape_closes_menu p shift :
  let e := mkKeyEvent (js "Escape") shift in
  (menu_open p = true →
   keydown e p =
     (mkMenuPage (Some (js "false"))
                 (classList_remove (js "open") (menu_classList p)) []
                 (focusableElements p) (Some Toggle) (menu_keydown p), false) ∧
   menu_open (keydown e p).1 = false) ∧
  (menu_open p = false → keydown e p = (p, false)).
Proof.
  cbv zeta.
  assert (key (mkKeyEvent (js "Escape") shift) ≠ js "Tab") as Hk by done.
  assert (keydown (mkKeyEvent (js "Escape") shift) p =
          (document_keydown (mkKeyEvent (js "Escape") shift) p, false)) as ->.
  { unfold keydown. destruct (activeElement p) as [[]|]; try done.
    by rewrite listeners_other_key. }
  unfold document_keydown. cbn [key].
  rewrite bool_decide_eq_true_2 by done. cbn [andb].
  split.
  - intros ->. split; [done|]. unfold menu_open. cbn [fst menu_classList].
    apply contains_remove.
  - by intros ->.
Qed.

Lemma escape_closes_menu_witness :
  let p := Menu.trapFocus (handle (FocusChange (Some (MenuItem 1)))
                             (handle ToggleClick sample_menu)) in
  menu_open (keydown (mkKeyEvent (js "Escape") false) p).1 = false.
Proof.
  intros p.
  assert (Hopen : menu_open p = true) by (by vm_compute).
  exact (proj2 (proj1 (escape_closes_menu p false) Hopen)).
Defined.

Lemma trapFocus_wraps_witness :
  let p := handle (FocusChange (Some (MenuItem 2)))
             (handle ToggleClick sample_menu) in
  keydown (tab false) (trapFocus p) = (focus (MenuItem 0) (trapFocus p), true).
Proof.
  intros p.
  assert (H0 : loaded p) by reflexivity.
  assert (Hf : head (focusableElements p) = Some (MenuItem 0)) by reflexivity.
  assert (Hl : last (focusableElements p) = Some (MenuItem 2)) by reflexivity.
  exact (proj1 (trapFocus_wraps p (MenuItem 0) (MenuItem 2) 2 H0 Hf Hl)
           eq_refl eq_refl).
Defined.

Lemma tab_not_intercepted_witness :
  let p := handle (FocusChange (Some (MenuItem 2)))
             (handle ToggleClick sample_menu) in
  keydown (tab false) p = (p, false).
Proof.
  intros p.
  assert (H0 : loaded sample_menu) by reflexivity.
  assert (Hr : reachable sample_menu p).
  { apply reachable_event, reachable_event, reachable_loaded. }
  exact (tab_not_intercepted sample_menu p false H0 Hr).
Defined.

End menu_events.

(** * Submitting again *)

Section resubmission.

Implicit Types (p q : Page) (f : Field) (i : nat).

Lemma submit_failure_same_data o err p :
  form_valid p = true → fails_with o err → same_data (submit o p) p.
Proof.
  intros Hv Hf. rewrite (submit_failure o err p Hv Hf). unfold same_data.
  destruct (finally_block_others (innerHTML <$> submitButton p)
    (catch_block err (logged (form_data p)
      (show_loading (validateForm (clear_previous_status p)).1))))
    as (-> & _).
  apply (validated_same_data p).
Qed.

(** After a failure the form still holds what was typed, so submitting
    again sends the same request a second time. *)
Theorem retry_after_failure_resends o1 err o2 p :
  form_valid p = true → fails_with o1 err →
  requests (submit o2 (submit o1 p)) =
  requests p ++ [submit_request (form_data p); submit_request (form_data p)].
Proof.
  intros Hv Hf.
  pose proof (submit_failure_same_data o1 err p Hv Hf) as Hsd.
  rewrite submit_requests by (by rewrite (form_valid_same_data _ p Hsd)).
  rewrite (form_data_same_data _ p Hsd), (submit_requests o1 p Hv).
  by rewrite <- app_assoc.
Qed.

Lemma retry_after_failure_resends_witness :
  let p := sample_page "Al" "a@b.co" "1234567890" "Send" in
  length (requests (submit (Resolves (JObject [(js "success", JBool true)]))
                      (submit (FetchRejects []) p))) = 2%nat.
Proof.
  intros p.
  assert (Hv : form_valid p = true) by (by vm_compute).
  rewrite (retry_after_failure_resends (FetchRejects []) _
             (Resolves (JObject [(js "success", JBool true)])) p Hv
             (fails_fetch [])).
  reflexivity.
Defined.

Lemma rule_of_blank f raw :
  f ∈ fields → trim raw = [] → field_rule f raw = Some Required.
Proof.
  intros Hf Hraw. apply list_elem_of_In in Hf.
  destruct Hf as [<-|[<-|[<-|[]]]]; simpl.
  - unfold name_rule. by rewrite decide_True.
  - unfold email_rule. by rewrite decide_True.
  - unfold message_rule. by rewrite decide_True.
Qed.

(** After a success the form is reset, and a field whose default value is
    blank fails as Required: submitting again at once sends nothing and
    flags that field. *)
Theorem resubmit_after_success_is_stopped o1 o2 p f i c :
  form_valid p = true → succeeds o1 →
  f ∈ fields → querySelector (field_id f) p = Some i →
  controls p !! i = Some c → trim (defaultValue c) = [] →
  requests (submit o2 (submit o1 p)) =
    requests p ++ [submit_request (form_data p)] ∧
  annotation i (submit o2 (submit o1 p)) = Some (Some (js "true"), js "#ff6b6b").
Proof.
  intros Hv Hs Hf Hq Hc Hblank.
  set (p1 := (validateForm (clear_previous_status p)).1).
  pose proof (validated_same_data p) as Hsd. fold p1 in Hsd.
  assert (controls (submit o1 p) = (λ c, set_value (defaultValue c) c) <$> controls p1)
    as Hctl.
  { rewrite (submit_success o1 p Hv Hs). fold p1.
    by destruct (finally_block_others (innerHTML <$> submitButton p)
      (succeeded (logged (form_data p) (show_loading p1)))) as (-> & _). }
  assert (Hq1 : querySelector (field_id f) (submit o1 p) = Some i).
  { rewrite <- Hq, <- (querySelector_same_data _ _ _ Hsd).
    unfold querySelector. rewrite Hctl, list_find_fmap.
    rewrite <- option_fmap_compose.
    by destruct (list_find _ (controls p1)) as [[]|]. }
  assert (Hv1 : value_of i (submit o1 p) = defaultValue c).
  { unfold value_of. rewrite Hctl, list_lookup_fmap.
    pose proof (same_data_lookup _ _ i Hsd) as Hi. rewrite Hc in Hi.
    destruct (controls p1 !! i) as [c1|]; simplify_eq/=. done. }
  assert (Hfail : field_fails f (submit o1 p) i Required).
  { split; [done|]. rewrite Hv1. by apply rule_of_blank. }
  rewrite (submit_invalid o2 _ (field_fails_invalid _ _ _ _ Hf Hfail)).
  destruct (validated_surroundings (submit o1 p)) as (_ & _ & _ & -> & _).
  split; [by apply submit_requests|].
  rewrite (validateForm_annotation (clear_previous_status (submit o1 p)) f i Hf Hq1).
  change (value_of i (clear_previous_status (submit o1 p)))
    with (value_of i (submit o1 p)).
  by rewrite (proj2 Hfail).
Qed.

Lemma resubmit_after_success_is_stopped_witness :
  let p := sample_page "Al" "a@b.co" "1234567890" "Send" in
  let o := Resolves (JObject [(js "success", JBool true)]) in
  length (requests (submit o (submit o p))) = 1%nat.
Proof.
  intros p o.
  assert (Hv : form_valid p = true) by (by vm_compute).
  assert (Hs : succeeds o).
  { exists (JObject [(js "success", JBool true)]). by vm_compute. }
  destruct (resubmit_after_success_is_stopped o o p name_field 0
              (sample_input "name" "Al" 0) Hv Hs name_field_validated
              eq_refl eq_refl eq_refl) as [Hr _].
  by rewrite Hr.
Defined.

End resubmission.

(** * Scroll animations *)

Section observers.

Import Nav Observers.

Implicit Types (entries : list Entry) (els : list (list jsstring))
  (cl : list jsstring) (j : nat).

(** The fade-in observer only ever reveals: after a batch of entries an
    element is visible exactly if it was visible before or the batch has an
    intersecting entry for it. An entry that reports the element as no
    longer intersecting does not hide it again, and no other class
    changes. *)
Theorem fadeIn_only_reveals entries els j cl :
  els !! j = Some cl →
  ∃ cl', fadeIn entries els !! j = Some cl' ∧
    (classList_contains (js "visible") cl' = true ↔
       classList_contains (js "visible") cl = true ∨
       ∃ en, en ∈ entries ∧ target en = j ∧ isIntersecting en = true) ∧
    ∀ c, c ≠ js "visible" → classList_contains c cl' = classList_contains c cl.
Proof.
  unfold fadeIn. revert els cl.
  induction entries as [|en entries IH]; intros els cl Hj.
  - exists cl. split_and!; [done| |done]. split; [by left|].
    intros [?|(en & Hen & _)]; [done|]. by apply elem_of_nil in Hen.
  - cbn [foldl]. destruct (isIntersecting en) eqn:Hint.
    + destruct (decide (target en = j)) as [Ht|Ht].
      * destruct (IH (alter (classList_add (js "visible")) (target en) els)
                    (classList_add (js "visible") cl)) as (cl' & Hl & Hv & Ho).
        { subst j. by rewrite list_lookup_alter_eq, Hj. }
        exists cl'. split_and!; [done| |].
        -- rewrite Hv. rewrite contains_add. split.
           ++ intros _. right. exists en. split_and!; [apply list_elem_of_here|done..].
           ++ intros _. by left.
        -- intros c Hc. by rewrite Ho, contains_add_other.
      * destruct (IH (alter (classList_add (js "visible")) (target en) els) cl)
          as (cl' & Hl & Hv & Ho).
        { by rewrite list_lookup_alter_ne. }
        exists cl'. split_and!; [done| |done].
        rewrite Hv. split.
        -- intros [?|(en' & Hin & Htg & Hi)]; [by left|]. right. exists en'.
           split_and!; [by apply list_elem_of_further|done..].
        -- intros [?|(en' & Hin & Htg & Hi)]; [by left|].
           apply elem_of_cons in Hin as [->|Hin]; [done|]. right. by exists en'.
    + destruct (IH els cl Hj) as (cl' & Hl & Hv & Ho).
      exists cl'. split_and!; [done| |done].
      rewrite Hv. split.
      * intros [?|(en' & Hin & Htg & Hi)]; [by left|]. right. exists en'.
        split_and!; [by apply list_elem_of_further|done..].
      * intros [?|(en' & Hin & Htg & Hi)]; [by left|].
        apply elem_of_cons in Hin as [->|Hin]; [congruence|]. right. by exists en'.
Qed.

Lemma fadeIn_only_reveals_witness :
  ∃ cl', fadeIn [mkEntry 0 true; mkEntry 0 false] [[js "fade-in"]] !! 0%nat
         = Some cl' ∧
         classList_contains (js "visible") cl' = true.
Proof.
  destruct (fadeIn_only_reveals [mkEntry 0 true; mkEntry 0 false]
              [[js "fade-in"]] 0 [js "fade-in"] eq_refl) as (cl' & Hl & Hv & _).
  exists cl'. split; [exact Hl|]. apply Hv. right.
  exists (mkEntry 0 true). split_and!; [apply list_elem_of_here|done..].
Defined.

End observers.
